(** * Tracepack: contextual logger (logger.js)

    A shallow embedding of the logger's context handling and emission
    pipeline.  JavaScript values that the logger can be handed live in an
    explicit heap, so that object identity, sharing and reference cycles
    are visible to the serializer exactly as they are in the source. *)

From Stdlib Require Import ZArith Ascii String.
From stdpp Require Import base gmap sets list strings pretty.

Local Open Scope string_scope.
Set Warnings "-register-all,-clear-no-such-hyp".

(** ** JavaScript values *)

Definition addr := positive.

(** Primitive values are carried inline; objects and arrays are references
    into the heap.  Numbers are the integers that print in plain decimal
    notation (fractions, NaN, the infinities and magnitudes from 1e21 on
    play no role in the logger); functions and symbols, which
    [JSON.stringify] treats as [undefined], are not represented. *)
Inductive value :=
| VUndefined
| VNull
| VBool (b : bool)
| VNum (n : Z)
| VBigInt (n : Z)
| VStr (s : string)
| VRef (a : addr).

(** A plain object is its list of own enumerable properties in insertion
    order (read as an object literal, see [literal]); an array is its list
    of elements, together with any named (non-index) properties that were
    put on it.  Every property is a data property holding a value: there
    are no getters and no methods of the object's own, so that an own
    [toJSON] or [toString] property is never callable.  Objects inherit
    from [Object.prototype] and arrays from [Array.prototype] only.
    Enumeration follows the list; the rule that puts the keys that are
    array indices first, in ascending order, is not represented, so the
    order of the members of a serialized text is the source's when no key
    of a plain object is an array index. *)
Inductive object :=
| Obj (props : list (string * value))
| Arr (elems : list value) (named : list (string * value)).

Abbreviation heap := (gmap addr object).

(** Thrown exceptions: the [TypeError]s of the language, and the system
    errors of the file system calls ([ENOTDIR], [EACCES], ...). *)
Inductive exn :=
| TypeError (msg : string)
| SystemError (code : string).

(** The two exceptions of [JSON.stringify]: the native cycle check, and a
    BigInt value. *)
Definition circular_error : exn := TypeError "Converting circular structure to JSON".
Definition bigint_error : exn := TypeError "Do not know how to serialize a BigInt".

(** Result of a computation that may throw; [OutOfFuel] is an artefact of
    the bounded recursion and is shown unreachable below. *)
Inductive res (A : Type) :=
| Ok (a : A)
| Throw (e : exn)
| OutOfFuel.
Arguments Ok {A} a.
Arguments Throw {A} e.
Arguments OutOfFuel {A}.

Global Instance res_bind : MBind res := λ A B k m,
  match m with
  | Ok a => k a
  | Throw e => Throw e
  | OutOfFuel => OutOfFuel
  end.

Global Instance res_ret : MRet res := λ A a, Ok a.

(** ** Own properties *)

(** JavaScript truthiness. *)
Definition truthy (v : value) : bool :=
  match v with
  | VUndefined | VNull => false
  | VBool b => b
  | VNum n => negb (n =? 0)%Z
  | VBigInt n => negb (n =? 0)%Z
  | VStr s => negb (String.eqb s EmptyString)
  | VRef _ => true
  end.

Definition nullish (v : value) : bool :=
  match v with VUndefined | VNull => true | _ => false end.

(** [a ?? b] *)
Definition coalesce (a b : value) : value := if nullish a then b else a.

Fixpoint get_prop (k : string) (props : list (string * value)) : option value :=
  match props with
  | [] => None
  | (k', v) :: rest => if String.eqb k k' then Some v else get_prop k rest
  end.

(** [o[k] = v] on a property list: overwrite in place, or append. *)
Fixpoint set_prop (k : string) (v : value) (props : list (string * value))
  : list (string * value) :=
  match props with
  | [] => [(k, v)]
  | (k', v') :: rest =>
      if String.eqb k k' then (k, v) :: rest else (k', v') :: set_prop k v rest
  end.

Fixpoint string_chars (s : string) : list value :=
  match s with
  | EmptyString => []
  | String c s' => VStr (String c EmptyString) :: string_chars s'
  end.

Definition indexed (vs : list value) : list (string * value) :=
  imap (λ i v, (pretty i, v)) vs.

(** [{...target, ...source}] on property lists: each property of the
    source is defined on the result. *)
Definition assign (target source : list (string * value)) : list (string * value) :=
  foldl (λ acc kv, set_prop kv.1 kv.2 acc) target source.

(** [o[k] = v] on an ordinary object, as a statement ([[Set]]).  The key
    [__proto__], unless it is an own property of [o], reaches the setter
    inherited from [Object.prototype]: the prototype may change, no
    property is added. *)
Definition put_prop (k : string) (v : value) (props : list (string * value))
  : list (string * value) :=
  match get_prop k props with
  | None => if String.eqb k "__proto__" then props else set_prop k v props
  | Some _ => set_prop k v props
  end.

(** The object written as the literal [{k1: v1, ..., kn: vn}]: a key
    written twice keeps its first position and its last value. *)
Definition literal (props : list (string * value)) : list (string * value) :=
  assign [] props.

(** Own enumerable string-keyed properties of an object. *)
Definition own_props (o : object) : list (string * value) :=
  match o with
  | Obj props => literal props
  | Arr elems named => literal (indexed elems ++ named)
  end.

(** Own enumerable string-keyed properties of a value, as enumerated by
    object spread, [Object.assign] and [Object.entries].  An address that
    the heap does not bind stands for an object without properties. *)
Definition entries (h : heap) (v : value) : list (string * value) :=
  match v with
  | VRef a =>
      match h !! a with
      | Some o => own_props o
      | None => []
      end
  | VStr s => literal (indexed (string_chars s))
  | _ => []
  end.

(** [v[k]], own data properties only; absent gives [undefined]. *)
Definition get (h : heap) (v : value) (k : string) : value :=
  default VUndefined (get_prop k (entries h v)).

(** ** JSON texts *)

Inductive json :=
| JNull
| JBool (b : bool)
| JNum (n : Z)
| JStr (s : string)
| JArr (items : list json)
| JObj (members : list (string * json)).

Definition dquote : string := String (ascii_of_nat 34) EmptyString.
Definition backslash : string := String (ascii_of_nat 92) EmptyString.

Definition hex_digit (n : nat) : ascii :=
  ascii_of_nat (if (n <? 10)%nat then (48 + n)%nat else (87 + n)%nat).

(** QuoteJSONString on one code unit. *)
Definition escape_char (c : ascii) : string :=
  let n := nat_of_ascii c in
  if (n =? 34)%nat then backslash ++ dquote
  else if (n =? 92)%nat then backslash ++ backslash
  else if (n =? 8)%nat then backslash ++ "b"
  else if (n =? 9)%nat then backslash ++ "t"
  else if (n =? 10)%nat then backslash ++ "n"
  else if (n =? 12)%nat then backslash ++ "f"
  else if (n =? 13)%nat then backslash ++ "r"
  else if (n <? 32)%nat then
    backslash ++ "u00"
      ++ String (hex_digit (n / 16)%nat) (String (hex_digit (n mod 16)%nat) EmptyString)
  else String c EmptyString.

Fixpoint escape (s : string) : string :=
  match s with
  | EmptyString => EmptyString
  | String c s' => escape_char c ++ escape s'
  end.

Definition quote (s : string) : string := dquote ++ escape s ++ dquote.

Fixpoint render (j : json) : string :=
  match j with
  | JNull => "null"
  | JBool true => "true"
  | JBool false => "false"
  | JNum n => pretty n
  | JStr s => quote s
  | JArr items => "[" ++ String.concat "," (List.map render items) ++ "]"
  | JObj members =>
      "{" ++ String.concat ","
               (List.map (λ kv, quote (fst kv) ++ ":" ++ render (snd kv)) members)
          ++ "}"
  end.

Fixpoint json_get (k : string) (members : list (string * json)) : option json :=
  match members with
  | [] => None
  | (k', j) :: rest => if String.eqb k k' then Some j else json_get k rest
  end.

(** Member [k] of a JSON object text. *)
Definition json_field (k : string) (j : json) : option json :=
  match j with JObj members => json_get k members | _ => None end.

(** ** JSON.stringify *)

Section stringify.
(** The replacer function, if any, with its captured state made explicit. *)
Context {R : Type}.
Variable replacer : option (R → string → value → value * R).
Variable h : heap.

Definition call_replacer (st : R) (key : string) (v : value) : value * R :=
  match replacer with
  | Some f => f st key v
  | None => (v, st)
  end.

(** The member loop of SerializeJSONObject: properties whose value
    serializes to [undefined] are left out. *)
Fixpoint SerializeJSONObject_members
    (ser : R → string → value → res (option json * R))
    (props : list (string * value)) (st : R)
  : res (list (string * json) * R) :=
  match props with
  | [] => Ok ([], st)
  | (k, v) :: rest =>
      '(oj, st1) ← ser st k v;
      '(ms, st2) ← SerializeJSONObject_members ser rest st1;
      Ok (match oj with Some j => (k, j) :: ms | None => ms end, st2)
  end.

(** The element loop of SerializeJSONArray: [undefined] becomes [null]. *)
Fixpoint SerializeJSONArray_items
    (ser : R → string → value → res (option json * R))
    (i : nat) (elems : list value) (st : R)
  : res (list json * R) :=
  match elems with
  | [] => Ok ([], st)
  | v :: rest =>
      '(oj, st1) ← ser st (pretty i) v;
      '(js, st2) ← SerializeJSONArray_items ser (S i) rest st1;
      Ok (default JNull oj :: js, st2)
  end.

(** SerializeJSONProperty, after the holder's property has been read:
    the replacer is applied first, then the value is dispatched on its
    type.  [stack] is the list of objects being serialized on the current
    path (the native cycle check).  The recursion is as deep as the value
    is nested; the point at which an engine gives up with a [RangeError]
    is not represented. *)
Fixpoint SerializeJSONProperty (fuel : nat) (stack : list addr) (st : R)
    (key : string) (v : value) : res (option json * R) :=
  match fuel with
  | O => OutOfFuel
  | S fuel' =>
      let '(v, st) := call_replacer st key v in
      match v with
      | VUndefined => Ok (None, st)
      | VNull => Ok (Some JNull, st)
      | VBool b => Ok (Some (JBool b), st)
      | VNum n => Ok (Some (JNum n), st)
      | VStr s => Ok (Some (JStr s), st)
      | VBigInt _ => Throw bigint_error
      | VRef a =>
          if bool_decide (a ∈ stack)
          then Throw circular_error
          else
            match h !! a with
            | Some (Arr elems _) =>
                '(js, st') ← SerializeJSONArray_items
                               (SerializeJSONProperty fuel' (a :: stack)) 0 elems st;
                Ok (Some (JArr js), st')
            | Some (Obj props) =>
                '(ms, st') ← SerializeJSONObject_members
                               (SerializeJSONProperty fuel' (a :: stack))
                               (literal props) st;
                Ok (Some (JObj ms), st')
            | None => Ok (Some (JObj []), st)
            end
      end
  end.

(** [JSON.stringify(v, replacer)]: [None] is the [undefined] result.  The
    nesting depth never exceeds the number of heap objects. *)
Definition JSON_stringify (st : R) (v : value) : res (option json) :=
  '(oj, _) ← SerializeJSONProperty (S (size h)) [] st EmptyString v;
  Ok oj.
End stringify.

(** ** safeStringify (logger.js, lines 39-50) *)

Definition circular_marker : string := "[Circular]".

(** The replacer closure; its state is the [seen] WeakSet. *)
Definition safe_replacer (seen : gset addr) (key : string) (v : value)
  : value * gset addr :=
  match v with
  | VRef a =>
      if bool_decide (a ∈ seen) then (VStr circular_marker, seen)
      else (v, {[a]} ∪ seen)
  | _ => (v, seen)
  end.

Definition safeStringify (h : heap) (obj : value) : res (option json) :=
  JSON_stringify (Some safe_replacer) h ∅ obj.

(** Plain [JSON.stringify(v)], no replacer. *)
Definition JSON_stringify_plain (h : heap) (v : value) : res (option json) :=
  JSON_stringify (R := unit) None h tt v.

(** ** String(v) *)

Fixpoint join_parts (ts : value → res string) (elems : list value) : res (list string) :=
  match elems with
  | [] => Ok []
  | v :: rest =>
      p ← (if nullish v then Ok EmptyString else ts v);
      ps ← join_parts ts rest;
      Ok (p :: ps)
  end.

(** The failure of [String(v)] on an object without a usable [toString]. *)
Definition unprintable_error : exn :=
  TypeError "Cannot convert object to primitive value".

(** [String(v)].  An object is converted through its [toString] method.
    An own property of that name, which among the values represented here
    is never a function, hides the inherited method: the conversion then
    falls through [valueOf] and throws.  Otherwise a plain object prints as
    [[object Object]], and an array is joined with commas (as
    [[object Array]] when an own [join] hides the inherited one), an array
    met again on the path contributing the empty string. *)
Fixpoint ToString_fuel (fuel : nat) (h : heap) (stack : list addr) (v : value)
  : res string :=
  match fuel with
  | O => OutOfFuel
  | S fuel' =>
      match v with
      | VUndefined => Ok "undefined"
      | VNull => Ok "null"
      | VBool true => Ok "true"
      | VBool false => Ok "false"
      | VNum n => Ok (pretty n)
      | VBigInt n => Ok (pretty n)
      | VStr s => Ok s
      | VRef a =>
          match h !! a with
          | Some (Arr elems named) =>
              match get_prop "toString" named, get_prop "join" named with
              | Some _, _ => Throw unprintable_error
              | None, Some _ => Ok "[object Array]"
              | None, None =>
                  if bool_decide (a ∈ stack) then Ok EmptyString
                  else
                    ps ← join_parts (ToString_fuel fuel' h (a :: stack)) elems;
                    Ok (String.concat "," ps)
              end
          | Some (Obj props) =>
              match get_prop "toString" props with
              | Some _ => Throw unprintable_error
              | None => Ok "[object Object]"
              end
          | None => Ok "[object Object]"
          end
      end
  end.

Definition ToString (h : heap) (v : value) : res string :=
  ToString_fuel (S (size h)) h [] v.

(** ** Module state of logger.js *)

(** What a lookup in [LOG_LEVELS] evaluates to, and what [currentLevel]
    holds: the rank of a level, the function or object found under a name
    that the object literal inherits from [Object.prototype], or
    [undefined]. *)
Inductive level_value :=
| Rank (r : nat)
| Inherited
| Undefined.

(** The property names that every object literal inherits. *)
Definition Object_prototype_keys : list string :=
  ["constructor"; "hasOwnProperty"; "isPrototypeOf"; "propertyIsEnumerable";
   "toLocaleString"; "toString"; "valueOf"; "__proto__";
   "__defineGetter__"; "__defineSetter__"; "__lookupGetter__"; "__lookupSetter__"].

(** [LOG_LEVELS[level]] *)
Definition LOG_LEVELS (level : string) : level_value :=
  if String.eqb level "debug" then Rank 0
  else if String.eqb level "info" then Rank 1
  else if String.eqb level "warn" then Rank 2
  else if String.eqb level "error" then Rank 3
  else if String.eqb level "none" then Rank 4
  else if existsb (String.eqb level) Object_prototype_keys then Inherited
  else Undefined.

(** [LOG_LEVELS[level] ?? LOG_LEVELS.info] *)
Definition level_or_info (level : string) : level_value :=
  match LOG_LEVELS level with
  | Undefined => LOG_LEVELS "info"
  | v => v
  end.

Definition RESERVED_FIELDS : list string := ["ts"; "level"; "msg"; "userId"; "txId"].

(** [RESERVED_FIELDS.has(key)] *)
Definition RESERVED_FIELDS_has (key : string) : bool :=
  existsb (String.eqb key) RESERVED_FIELDS.

(** Where a line is written: the file stream, or one of the original
    console methods saved in [originalConsole]. *)
Inductive sink :=
| FileSink (path : string)
| ConsoleError
| ConsoleWarn
| ConsoleLog.

(** What one call of [emit] did when it returned normally: it was stopped
    by the level gate, or it produced one output (the result of
    serialization, [None] standing for [undefined]) and wrote it. *)
Inductive emitted :=
| Skipped
| Emitted (output : option json) (writes : list (sink * string)).

Definition output_text (output : option json) : string :=
  match output with
  | Some j => render j
  | None => "undefined"
  end.

Definition newline : string := String (ascii_of_nat 10) EmptyString.

(** [(asyncContext.getStore() || {})[k]] *)
Definition ctx_get (h : heap) (store : value) (k : string) : value :=
  if truthy store then get h store k else VUndefined.

(** [LOG_LEVELS[level] < currentLevel]: a comparison of two numbers;
    with [undefined], a function or an object on either side it is
    false. *)
Definition below_level (level : string) (currentLevel : level_value) : bool :=
  match LOG_LEVELS level, currentLevel with
  | Rank r, Rank c => (r <? c)%nat
  | _, _ => false
  end.

(** The object literal of [emit] (lines 60-67, and 299-306 of the second
    variant): fixed fields, then the spread of [data], then [msg].  An
    omitted [data] defaults to [{}], which spreads to nothing, as
    [undefined] itself does. *)
Definition entry_literal (h : heap) (store : value) (now level : string)
    (message data : value) : list (string * value) :=
  set_prop "msg" message
    (assign [("ts", VStr now);
             ("level", VStr level);
             ("userId", coalesce (ctx_get h store "userId") VNull);
             ("txId", coalesce (ctx_get h store "txId") VNull)]
            (entries h data)).

(** Console part of the dispatch, shared by both variants. *)
Definition console_writes (outputMode level : string) (output : string)
  : list (sink * string) :=
  if String.eqb outputMode "console" || String.eqb outputMode "both" then
    if String.eqb level "error" then [(ConsoleError, output)]
    else if String.eqb level "warn" then [(ConsoleWarn, output)]
    else [(ConsoleLog, output)]
  else [].

Definition file_selected (outputMode : string) : bool :=
  String.eqb outputMode "file" || String.eqb outputMode "both".

(** Options of [replaceConsole]; [None] is an omitted option. *)
Record console_options := {
  level : option string;
  output : option string;
  filePath : option string
}.

(** The file system as [replaceConsole] meets it.  [resolve] is
    [path.resolve], which depends on the working directory; [mkdir_for p]
    is the outcome of [mkdirSync(dirname(p), { recursive: true })], the
    exception it throws or [None] when it returns.  [createWriteStream]
    reports the failures of the file system later, on the stream. *)
Record file_system := {
  resolve : string → string;
  mkdir_for : string → option exn
}.

(** A file system on which every directory can be made, seen from paths
    that are absolute and normalized already. *)
Definition plain_fs : file_system :=
  {| resolve := λ p, p; mkdir_for := λ _, None |}.

Definition nonempty (s : string) : bool := negb (String.eqb s EmptyString).

(** ** emit, current variant (logger.js lines 55-106) *)

Record config := {
  currentLevel : level_value;
  outputMode : string;
  logFileStream : option string
}.

Definition initial_config : config :=
  {| currentLevel := Rank 1; outputMode := "console"; logFileStream := None |}.

(** Lines 69-76: custom context fields, reserved keys filtered out. *)
Definition add_custom (h : heap) (store : value) (entry : list (string * value))
  : list (string * value) :=
  let custom := ctx_get h store "custom" in
  if truthy custom then
    foldl (λ e kv, if RESERVED_FIELDS_has kv.1 then e else put_prop kv.1 kv.2 e)
          entry (entries h custom)
  else entry.

Definition build_entry (h : heap) (store : value) (now level : string)
    (message data : value) : list (string * value) :=
  add_custom h store (entry_literal h store now level message data).

(** Lines 78-89.  The entry is a fresh object of the heap; so is the
    fallback object built in the [catch] block. *)
Definition serialize_entry (h : heap) (entry : list (string * value))
    (message : value) : res (option json) :=
  let e := fresh (dom h) in
  let h1 := <[e := Obj entry]> h in
  match safeStringify h1 (VRef e) with
  | Throw _ =>
      originalMsg ← ToString h1 message;
      let f := fresh (dom h1) in
      let h2 := <[f := Obj [("ts", get h1 (VRef e) "ts");
                            ("level", VStr "error");
                            ("msg", VStr "Failed to serialize log entry");
                            ("originalMsg", VStr originalMsg)]]> h1 in
      JSON_stringify_plain h2 (VRef f)
  | r => r
  end.

Definition dispatch (cfg : config) (level : string) (output : option json)
  : list (sink * string) :=
  match logFileStream cfg with
  | Some path =>
      if file_selected (outputMode cfg)
      then [(FileSink path, output_text output ++ newline)]
      else []
  | None => []
  end ++ console_writes (outputMode cfg) level (output_text output).

Definition emit (cfg : config) (h : heap) (store : value) (now level : string)
    (message data : value) : res emitted :=
  if below_level level (currentLevel cfg) then Ok Skipped
  else
    output ← serialize_entry h (build_entry h store now level message data) message;
    Ok (Emitted output (dispatch cfg level output)).

(** What line 80 computes: the text of the entry, or the exception that
    the [catch] block receives. *)
Definition entry_text (h : heap) (store : value) (now level : string)
    (message data : value) : res (option json) :=
  safeStringify (<[fresh (dom h) := Obj (build_entry h store now level message data)]> h)
                (VRef (fresh (dom h))).

(** ** emit, second variant (logger.js lines 294-330) *)

Module Legacy.

Record config := {
  currentLevel : level_value;
  outputMode : string;
  logFilePath : option string
}.

Definition initial_config : config :=
  {| currentLevel := Rank 1; outputMode := "console"; logFilePath := None |}.

(** Lines 308-311: [Object.assign(entry, ctx.custom)], which assigns
    the properties of the source one by one. *)
Definition add_custom (h : heap) (store : value) (entry : list (string * value))
  : list (string * value) :=
  let custom := ctx_get h store "custom" in
  if truthy custom
  then foldl (λ e kv, put_prop kv.1 kv.2 e) entry (entries h custom)
  else entry.

Definition build_entry (h : heap) (store : value) (now level : string)
    (message data : value) : list (string * value) :=
  add_custom h store (entry_literal h store now level message data).

(** Line 313: [JSON.stringify(entry)], outside any [try]. *)
Definition serialize_entry (h : heap) (entry : list (string * value))
  : res (option json) :=
  let e := fresh (dom h) in
  JSON_stringify_plain (<[e := Obj entry]> h) (VRef e).

Definition dispatch (cfg : config) (level : string) (output : option json)
  : list (sink * string) :=
  match logFilePath cfg with
  | Some path =>
      if file_selected (outputMode cfg)
      then [(FileSink path, output_text output ++ newline)]
      else []
  | None => []
  end ++ console_writes (outputMode cfg) level (output_text output).

Definition emit (cfg : config) (h : heap) (store : value) (now level : string)
    (message data : value) : res emitted :=
  if below_level level (currentLevel cfg) then Ok Skipped
  else
    output ← serialize_entry h (build_entry h store now level message data);
    Ok (Emitted output (dispatch cfg level output)).

(** Lines 433-448: the path variable is reset on every call. *)
Definition replaceConsole (fs : file_system) (options : console_options)
  : res config :=
  let level := default "info" (level options) in
  let output := default "console" (output options) in
  let path :=
    match filePath options with
    | Some p => if nonempty p then Some (resolve fs p) else None
    | None => None
    end in
  let cfg' := {| currentLevel := level_or_info level;
                 outputMode := output;
                 logFilePath := path |} in
  match path with
  | Some q =>
      if file_selected output then
        match mkdir_for fs q with
        | Some e => Throw e
        | None => Ok cfg'
        end
      else Ok cfg'
  | None => Ok cfg'
  end.

End Legacy.

(** ** The context store and its lifecycle API *)

(** [asyncContext.run(store, fn)]: the callback, and everything it
    schedules, observes [store] as the result of [getStore()].  A callback
    is therefore a function of the store that is active while it runs. *)
Definition run {A} (store : value) (fn : value → A) : A := fn store.

(** [randomUUID()]: an external source of identifiers, the [n]-th draw
    being different from all earlier ones. *)
Definition randomUUID (n : nat) : string := "uuid-" ++ pretty n.

(** The part of the program state that the lifecycle API touches: the
    heap, and how many identifiers have been drawn so far. *)
Record world := {
  w_heap : heap;
  w_uuids : nat
}.

(** [o.k = v] for a key that is not an array index. *)
Definition set_field (h : heap) (a : addr) (k : string) (v : value) : heap :=
  match h !! a with
  | Some (Obj props) => <[a := Obj (set_prop k v props)]> h
  | Some (Arr elems named) => <[a := Arr elems (set_prop k v named)]> h
  | None => <[a := Obj [(k, v)]]> h
  end.

(** [log.addContext(fields)] (lines 126-131).  The module is strict-mode
    code, so assigning a property on a primitive store throws. *)
Definition addContext (h : heap) (store : value) (fields : value) : res heap :=
  if truthy store then
    match store with
    | VRef s =>
        let c := fresh (dom h) in
        let merged := assign (literal (entries h (get h store "custom")))
                             (entries h fields) in
        Ok (set_field (<[c := Obj merged]> h) s "custom" (VRef c))
    | _ => Throw (TypeError "Cannot create property 'custom'")
    end
  else Ok h.

(** [withContext(ctx, fn)] (lines 172-179).  Reading a property of
    [undefined] or [null] throws; [randomUUID()] is only called when the
    seed has no [txId]; [{}] is only allocated when it has no [custom]. *)
Definition withContext {A} (w : world) (ctx : value) (fn : value → world → A)
  : res A :=
  if nullish ctx then Throw (TypeError "Cannot read properties of undefined")
  else
    let h := w_heap w in
    let userId := coalesce (get h ctx "userId") VNull in
    let '(txId, n1) :=
      if nullish (get h ctx "txId")
      then (VStr (randomUUID (w_uuids w)), S (w_uuids w))
      else (get h ctx "txId", w_uuids w) in
    let '(custom, h1) :=
      if nullish (get h ctx "custom")
      then let c := fresh (dom h) in (VRef c, <[c := Obj []]> h)
      else (get h ctx "custom", h) in
    let s := fresh (dom h1) in
    let h2 := <[s := Obj [("userId", userId); ("txId", txId); ("custom", custom)]]> h1 in
    Ok (run (VRef s) (λ store, fn store {| w_heap := h2; w_uuids := n1 |})).

(** [captureContext()] (lines 192-194) and [log.getContext()]: a shallow
    copy of the active store. *)
Definition captureContext (h : heap) (store : value) : value * heap :=
  let c := fresh (dom h) in
  (VRef c, <[c := Obj (literal (entries h store))]> h).


(** ** loggerMiddleware (lines 138-161) *)

Fixpoint split_go (sep : ascii) (cur : string) (s : string) : list string :=
  match s with
  | EmptyString => [String.rev cur]
  | String c s' =>
      if Ascii.eqb c sep then String.rev cur :: split_go sep EmptyString s'
      else split_go sep (String c cur) s'
  end.

(** [s.split(sep)] for a one-character separator. *)
Definition split (sep : ascii) (s : string) : list string :=
  split_go sep EmptyString s.

(** [obj?.[key]] *)
Definition optional_get (h : heap) (obj : value) (key : string) : value :=
  if nullish obj then VUndefined else get h obj key.

(** Options of the middleware; [None] is an omitted option.  A custom
    generator is a function of the number of identifiers generated so
    far. *)
Record middleware_options := {
  userIdPath : option string;
  txIdHeader : option string;
  generateTxId : option (nat → value)
}.

(** [loggerMiddleware()] *)
Definition default_options : middleware_options :=
  {| userIdPath := None; txIdHeader := None; generateTxId := None |}.

(** What the middleware did: the header it set on the response, and the
    result of running [next] inside the new context. *)
Record handled (A : Type) := {
  response_header : string * value;
  next_result : A
}.
Arguments response_header {A} _.
Arguments next_result {A} _.

(** The request is its object together with its header accessor
    [req.get]. *)
Definition loggerMiddleware {A} (options : middleware_options) (w : world)
    (req : value) (req_get : string → value) (next : value → world → A)
  : handled A :=
  let h := w_heap w in
  let userId :=
    coalesce (foldl (optional_get h) req
                    (split "." (default "user.id" (userIdPath options)))) VNull in
  let header := req_get (default "x-transaction-id" (txIdHeader options)) in
  let '(txId, n1) :=
    if truthy header then (header, w_uuids w)
    else (match generateTxId options with
          | Some gen => gen (w_uuids w)
          | None => VStr (randomUUID (w_uuids w))
          end, S (w_uuids w)) in
  let c := fresh (dom h) in
  let h1 := <[c := Obj []]> h in
  let s := fresh (dom h1) in
  let h2 := <[s := Obj [("userId", userId); ("txId", txId); ("custom", VRef c)]]> h1 in
  {| response_header := ("x-transaction-id", txId);
     next_result := run (VRef s) (λ store, next store {| w_heap := h2; w_uuids := n1 |}) |}.

(** ** replaceConsole (lines 209-256) *)

(** The configuration part of [replaceConsole], as a function of the
    module state before the call.  The stream variable keeps its earlier
    value when no stream is opened.  The function has no [throw] of its
    own; it fails when [mkdirSync] does, and the module state that such a
    failed call leaves behind (level and mode assigned, stream untouched)
    is not represented. *)
Definition replaceConsole (fs : file_system) (cfg : config)
    (options : console_options) : res config :=
  let level := default "info" (level options) in
  let output := default "console" (output options) in
  let kept := {| currentLevel := level_or_info level;
                 outputMode := output;
                 logFileStream := logFileStream cfg |} in
  match filePath options with
  | Some p =>
      if nonempty p && file_selected output then
        let resolvedPath := resolve fs p in
        match mkdir_for fs resolvedPath with
        | Some e => Throw e
        | None => Ok {| currentLevel := level_or_info level;
                        outputMode := output;
                        logFileStream := Some resolvedPath |}
        end
      else Ok kept
  | None => Ok kept
  end.

(** The adapters installed on [console]: the first argument is the message,
    a single further argument of type [object] is the data, any other
    further arguments are wrapped as [{ args }]. *)
Definition console_data (h : heap) (rest : list value) : value * heap :=
  match rest with
  | [] => (VUndefined, h)
  | [VRef a] => (VRef a, h)
  | [VNull] => (VNull, h)
  | _ =>
      let arr := fresh (dom h) in
      let h1 := <[arr := Arr rest []]> h in
      let wrapper := fresh (dom h1) in
      (VRef wrapper, <[wrapper := Obj [("args", VRef arr)]]> h1)
  end.

Definition console_method (level : string) (cfg : config) (h : heap)
    (store : value) (now : string) (args : list value) : res emitted :=
  let msg := hd VUndefined args in
  let '(data, h1) := console_data h (tl args) in
  text ← ToString h1 msg;
  emit cfg h1 store now level (VStr text) data.

Definition console_log := console_method "info".
Definition console_info := console_log.
Definition console_debug := console_method "debug".
Definition console_warn := console_method "warn".
Definition console_error := console_method "error".

(** [log.debug], [log.info], [log.warn], [log.error] (lines 111-115) *)
Definition log_debug cfg h store now msg data := emit cfg h store now "debug" msg data.
Definition log_info cfg h store now msg data := emit cfg h store now "info" msg data.
Definition log_warn cfg h store now msg data := emit cfg h store now "warn" msg data.
Definition log_error cfg h store now msg data := emit cfg h store now "error" msg data.

(** ** Interleaved asynchronous chains *)

(** What the code of a chain does between two suspension points, as far as
    the logger is concerned. *)
Inductive op :=
| Log (now level : string) (message data : value)
| AddContext (fields : value).

(** The identity and correlation id that [emit] reads from a store. *)
Definition identity_of (h : heap) (store : value) : value * value :=
  (coalesce (ctx_get h store "userId") VNull,
   coalesce (ctx_get h store "txId") VNull).

(** A chain is a continuation: the store it was started under travels with
    it, which is what [AsyncLocalStorage] provides; the heap, and with it
    every record, is shared by all chains.  [ch_identity] remembers the
    identity and correlation id that the chain was established with, as
    the seed or the request gave them. *)
Record chain := {
  ch_store : value;
  ch_identity : value * value;
  ch_todo : list op
}.

(** One event per [emit] call that passed the level gate: the chain that
    made the call, the own properties of the call's data, what serializing
    the entry gave inside the [try], and what [emit] returned. *)
Record event := {
  ev_chain : nat;
  ev_data : list (string * value);
  ev_entry_text : res (option json);
  ev_result : res emitted
}.

Record system := {
  sys_world : world;
  sys_chains : list chain;
  sys_events : list event
}.

(** What the event loop does next: start a chain through [withContext] or
    through the middleware, or resume chain [i] for one operation. *)
Inductive action :=
| Establish (ctx : value) (program : list op)
| Request (options : middleware_options) (req : value) (req_get : string → value)
    (program : list op)
| Resume (i : nat).

(** The identity that [withContext(ctx, fn)] is asked to establish: the
    seed's [userId], or null; the seed's [txId], or the next identifier
    drawn. *)
Definition seed_identity (w : world) (ctx : value) : value * value :=
  (coalesce (get (w_heap w) ctx "userId") VNull,
   if nullish (get (w_heap w) ctx "txId")
   then VStr (randomUUID (w_uuids w))
   else get (w_heap w) ctx "txId").

(** The identity that the middleware is asked to establish for a
    request: the value found along the path, or null; the inbound header
    when it is not empty, or else the generated identifier (null when a
    custom generator gives none). *)
Definition request_identity (options : middleware_options) (w : world)
    (req : value) (req_get : string → value) : value * value :=
  (coalesce (foldl (optional_get (w_heap w)) req
                   (split "." (default "user.id" (userIdPath options)))) VNull,
   coalesce
     (if truthy (req_get (default "x-transaction-id" (txIdHeader options)))
      then req_get (default "x-transaction-id" (txIdHeader options))
      else match generateTxId options with
           | Some gen => gen (w_uuids w)
           | None => VStr (randomUUID (w_uuids w))
           end) VNull).

Definition new_chain (program : list op) (identity : value * value)
    (store : value) (w : world) : chain * world :=
  ({| ch_store := store; ch_identity := identity; ch_todo := program |}, w).

Definition add_chain (s : system) (cw : chain * world) : system :=
  {| sys_world := cw.2;
     sys_chains := sys_chains s ++ [cw.1];
     sys_events := sys_events s |}.

Definition run_op (cfg : config) (i : nat) (c : chain) (o : op) (s : system)
  : system :=
  let h := w_heap (sys_world s) in
  let chains := <[i := {| ch_store := ch_store c;
                          ch_identity := ch_identity c;
                          ch_todo := tl (ch_todo c) |}]> (sys_chains s) in
  match o with
  | Log now level message data =>
      {| sys_world := sys_world s;
         sys_chains := chains;
         sys_events :=
           if below_level level (currentLevel cfg) then sys_events s
           else sys_events s ++
                  [{| ev_chain := i;
                      ev_data := entries h data;
                      ev_entry_text :=
                        entry_text h (ch_store c) now level message data;
                      ev_result := emit cfg h (ch_store c) now level message data |}] |}
  | AddContext fields =>
      {| sys_world :=
           match addContext h (ch_store c) fields with
           | Ok h' => {| w_heap := h'; w_uuids := w_uuids (sys_world s) |}
           | _ => sys_world s
           end;
         sys_chains := chains;
         sys_events := sys_events s |}
  end.

Definition step (cfg : config) (s : system) (a : action) : system :=
  match a with
  | Establish ctx program =>
      match withContext (sys_world s) ctx
                        (new_chain program (seed_identity (sys_world s) ctx)) with
      | Ok cw => add_chain s cw
      | _ => s
      end
  | Request options req req_get program =>
      add_chain s (next_result
                     (loggerMiddleware options (sys_world s) req req_get
                        (new_chain program
                           (request_identity options (sys_world s) req req_get))))
  | Resume i =>
      match sys_chains s !! i with
      | Some c =>
          match ch_todo c with
          | o :: _ => run_op cfg i c o s
          | [] => s
          end
      | None => s
      end
  end.

(** A schedule is any sequence of actions. *)
Definition exec (cfg : config) (s : system) (schedule : list action) : system :=
  foldl (step cfg) s schedule.

Definition idle (h : heap) : system :=
  {| sys_world := {| w_heap := h; w_uuids := 0 |};
     sys_chains := [];
     sys_events := [] |}.


(** ** Predicates and scenarios of the statements *)

(** A property of results that the loops of SerializeJSONObject and
    SerializeJSONArray carry from the elements to the whole: [I] holds of
    the replacer state throughout and [T] of the exception, if any. *)
Definition ser_ok {R A} (I : R → Prop) (T : exn → Prop) (F : Prop) (r : res (A * R)) : Prop :=
  match r with
  | Ok (_, st') => I st'
  | Throw e => T e
  | OutOfFuel => F
  end.

(** JSON form of the primitives that serialize as themselves. *)
Definition prim_json (v : value) : option json :=
  match v with
  | VNull => Some JNull
  | VBool b => Some (JBool b)
  | VNum n => Some (JNum n)
  | VStr s => Some (JStr s)
  | _ => None
  end.

(** What a call handed to the sinks, if anything. *)
Definition emitted_output (r : res emitted) : option json :=
  match r with
  | Ok (Emitted output _) => output
  | _ => None
  end.

(** A seed [{userId: 'alex_123', txId: 'abc-789'}] at address 2 and the
    fields [{msg: 'spoof', level: 'error'}] at address 1. *)
Definition spoof_heap : heap :=
  <[2%positive := Obj [("userId", VStr "alex_123"); ("txId", VStr "abc-789")]]>
    (<[1%positive := Obj [("msg", VStr "spoof"); ("level", VStr "error")]]> ∅).

(** [withContext(seed, () => { log.addContext(fields); return info(h, store) })] *)
Definition spoof_scenario (info : heap → value → res emitted) : res emitted :=
  r ← withContext {| w_heap := spoof_heap; w_uuids := 0 |} (VRef 2%positive)
        (λ store w,
           h' ← addContext (w_heap w) store (VRef 1%positive);
           info h' store);
  r.

(** [{ts: 10n}] *)
Definition bigint_ts_heap : heap := <[1%positive := Obj [("ts", VBigInt 10)]]> ∅.

(** [{n: 10n}] *)
Definition bigint_heap : heap := <[1%positive := Obj [("n", VBigInt 10)]]> ∅.


(** [{toString: null}]: an object whose conversion to a string fails. *)
Definition unprintable_heap : heap :=
  <[1%positive := Obj [("toString", VNull)]]> ∅.

(** [const data = {n: 1}; data.self = data] *)
Definition cyclic_heap : heap :=
  <[1%positive := Obj [("n", VNum 1); ("self", VRef 1%positive)]]> ∅.

(** [const data = {}; data.ts = data; data.n = 10n] *)
Definition cyclic_ts_heap : heap :=
  <[1%positive := Obj [("ts", VRef 1%positive); ("n", VBigInt 10)]]> ∅.

(** [const shared = {x: 1}; const obj = {a: shared, b: shared}] *)
Definition shared_heap : heap :=
  <[2%positive := Obj [("x", VNum 1)]]>
    (<[1%positive := Obj [("a", VRef 2%positive); ("b", VRef 2%positive)]]> ∅).

(** The objects that an object references directly. *)
Definition refs (o : object) : list addr :=
  omap (λ kv, match kv.2 with VRef a => Some a | _ => None end) (own_props o).

Definition points_to (h : heap) (a b : addr) : Prop :=
  ∃ o, h !! a = Some o ∧ b ∈ refs o.

(** No object reaches itself. *)
Definition acyclic (h : heap) : Prop := ∀ a, ¬ tc (points_to h) a a.

(** [(ctx.custom)[k]], when [ctx.custom] is truthy. *)
Definition custom_field (h : heap) (store : value) (k : string) : option value :=
  if truthy (ctx_get h store "custom")
  then get_prop k (entries h (ctx_get h store "custom"))
  else None.

(** [h'] has every object of [h], unchanged. *)
Definition extends (h h' : heap) : Prop :=
  ∀ a, a ∈ dom h → h' !! a = h !! a.

(** The store of a chain is a record of the heap, and still holds the
    identity the chain was established with. *)
Definition record_ok (h : heap) (c : chain) : Prop :=
  ∃ a, ch_store c = VRef a ∧ a ∈ dom h ∧ identity_of h (VRef a) = ch_identity c.






(** Two seeds, [{userId: 'alice', txId: 'tx-a'}] and [{userId: 'bob'}],
    and fields [{userId: 'mallory', step: 1}] for [addContext]. *)
Definition two_seeds : heap :=
  <[3%positive := Obj [("userId", VStr "mallory"); ("step", VNum 1)]]>
    (<[2%positive := Obj [("userId", VStr "bob")]]>
       (<[1%positive := Obj [("userId", VStr "alice"); ("txId", VStr "tx-a")]]> ∅)).

(** Chain 0 and chain 1 are established one after the other and then
    resumed in turn. *)
Definition interleaving : list action :=
  [Establish (VRef 1%positive)
     [Log "T1" "info" (VStr "a1") VUndefined;
      Log "T4" "warn" (VStr "a2") VUndefined];
   Establish (VRef 2%positive)
     [AddContext (VRef 3%positive);
      Log "T3" "info" (VStr "b1") VUndefined];
   Resume 0; Resume 1; Resume 1; Resume 0].




(** A request object [{user: {id: 'alex_123'}}]. *)
Definition request_heap : heap :=
  <[2%positive := Obj [("user", VRef 1%positive)]]>
    (<[1%positive := Obj [("id", VStr "alex_123")]]> ∅).

(** ** Shapes of the object graph *)

(** The values that serialization visits directly below an object. *)
Definition children (o : object) : list value :=
  match o with
  | Obj props => (literal props).*2
  | Arr elems _ => elems
  end.



Fixpoint visit_all (visit : gset addr → value → option (gset addr))
    (vs : list value) (X : gset addr) : option (gset addr) :=
  match vs with
  | [] => Some X
  | v :: vs' =>
      match visit X v with
      | Some Y => visit_all visit vs' Y
      | None => None
      end
  end.

(** A depth-first walk from [v] that gives up as soon as it meets an
    object it has met before; [X] is the set of objects met so far. *)
Fixpoint visit_once (fuel : nat) (h : heap) (X : gset addr) (v : value)
  : option (gset addr) :=
  match fuel with
  | O => None
  | S fuel' =>
      match v with
      | VRef a =>
          if bool_decide (a ∈ X) then None
          else visit_all (visit_once fuel' h)
                         (match h !! a with Some o => children o | None => [] end)
                         ({[a]} ∪ X)
      | _ => Some X
      end
  end.

(** Every object below [v] is referenced exactly once: no sharing, no
    cycle. *)
Definition tree_shaped (h : heap) (v : value) : bool :=
  match visit_once (S (size h)) h ∅ v with
  | Some _ => true
  | None => false
  end.

(** The result of the plain serializer, with the state that the [seen]
    replacer would have reached. *)
Definition with_seen {A} (Y : gset addr) (r : res (A * unit)) : res (A * gset addr) :=
  match r with
  | Ok (x, _) => Ok (x, Y)
  | Throw e => Throw e
  | OutOfFuel => OutOfFuel
  end.

(** [{a: {b: 1, c: [true, null]}, d: 'x'}], with the inner object at
    address 2 and the array at address 3. *)
Definition nested_heap : heap :=
  <[3%positive := Arr [VBool true; VNull] []]>
    (<[2%positive := Obj [("b", VNum 1); ("c", VRef 3%positive)]]>
       (<[1%positive := Obj [("a", VRef 2%positive); ("d", VStr "x")]]> ∅)).

(** The console method that takes a line of the given level. *)
Definition console_sink (level : string) : sink :=
  if String.eqb level "error" then ConsoleError
  else if String.eqb level "warn" then ConsoleWarn
  else ConsoleLog.

(** The four levels of the [log] object and of the [console] adapters. *)
Definition call_levels : list string := ["debug"; "info"; "warn"; "error"].


(** A record [{userId: 'alice', txId: 'tx-a', custom: {step: 1}}] at
    address 2, its custom object at address 1, and fields
    [{step: 2, userId: 'mallory'}] at address 3. *)
Definition custom_heap : heap :=
  <[3%positive := Obj [("step", VNum 2); ("userId", VStr "mallory")]]>
    (<[2%positive := Obj [("userId", VStr "alice"); ("txId", VStr "tx-a");
                          ("custom", VRef 1%positive)]]>
       (<[1%positive := Obj [("step", VNum 1); ("orderId", VNum 7)]]> ∅)).

(** The text holds no line feed. *)
Fixpoint single_line (s : string) : bool :=
  match s with
  | EmptyString => true
  | String c s' => negb (nat_of_ascii c =? 10)%nat && single_line s'
  end.

(** The primitives that [JSON.stringify] accepts: everything but a
    BigInt and a reference. *)
Definition plain (v : value) : bool :=
  match v with
  | VBigInt _ | VRef _ => false
  | _ => true
  end.

(** [String(v)] returns, or fails with the one exception of an object
    that has no usable [toString]. *)
Definition converts (r : res string) : Prop :=
  (∃ s, r = Ok s) ∨ r = Throw unprintable_error.

(** [String(v)] returned. *)
Definition converts_to_text (r : res string) : Prop := ∃ s, r = Ok s.

(** * Properties *)

(** ** Property lists *)

Lemma get_prop_set_prop k k' v ps :
  get_prop k (set_prop k' v ps) = if String.eqb k k' then Some v else get_prop k ps.
Proof.
  induction ps as [|[k0 v0] ps IH]; simpl.
  - by destruct (String.eqb k k').
  - destruct (String.eqb_spec k' k0) as [->|Hne]; simpl.
    + by destruct (String.eqb k k0).
    + destruct (String.eqb_spec k k0) as [->|?].
      * destruct (String.eqb_spec k0 k'); congruence.
      * apply IH.
Qed.

Lemma get_prop_set_prop_eq k v ps : get_prop k (set_prop k v ps) = Some v.
Proof. by rewrite get_prop_set_prop, String.eqb_refl. Qed.

Lemma get_prop_set_prop_ne k k' v ps :
  k ≠ k' → get_prop k (set_prop k' v ps) = get_prop k ps.
Proof.
  intros Hne. rewrite get_prop_set_prop.
  by destruct (String.eqb_spec k k').
Qed.

Lemma get_prop_app k ps qs :
  get_prop k (ps ++ qs)%list =
  match get_prop k ps with Some v => Some v | None => get_prop k qs end.
Proof.
  induction ps as [|[k0 v0] ps IH]; simpl; [done|].
  by destruct (String.eqb k k0).
Qed.

Lemma get_prop_None k ps : get_prop k ps = None ↔ k ∉ ps.*1.
Proof.
  induction ps as [|[k0 v0] ps IH]; simpl.
  - split; [intros _; apply not_elem_of_nil | done].
  - rewrite not_elem_of_cons.
    destruct (String.eqb_spec k k0) as [->|Hne]; [|tauto].
    split; [done | intros [? _]; done].
Qed.

(** The last binding of [k] in [s] is the one that [assign] leaves. *)
Lemma get_prop_assign_rev k t s :
  get_prop k (assign t s) =
  match get_prop k (reverse s) with Some v => Some v | None => get_prop k t end.
Proof.
  unfold assign. revert t.
  induction s as [|[k0 v0] s IH]; intros t; simpl; [done|].
  rewrite IH, reverse_cons, get_prop_app. simpl.
  destruct (get_prop k (reverse s)); [done|].
  rewrite get_prop_set_prop. by destruct (String.eqb k k0).
Qed.

Lemma keys_set_prop k v ps :
  (set_prop k v ps).*1 = if bool_decide (k ∈ ps.*1) then ps.*1 else (ps.*1 ++ [k])%list.
Proof.
  induction ps as [|[k0 v0] ps IH]; [done|].
  cbn [set_prop]. destruct (String.eqb_spec k k0) as [->|Hne]; rewrite !fmap_cons; cbn [fst].
  - rewrite bool_decide_eq_true_2; [done | apply list_elem_of_here].
  - rewrite IH. destruct (decide (k ∈ ps.*1)) as [Hin|Hin].
    + rewrite !bool_decide_eq_true_2; [done | by apply list_elem_of_further | done].
    + rewrite !bool_decide_eq_false_2; [done | | done].
      rewrite not_elem_of_cons. tauto.
Qed.

Lemma NoDup_set_prop k v ps : NoDup ps.*1 → NoDup (set_prop k v ps).*1.
Proof.
  intros Hnd. rewrite keys_set_prop. case_bool_decide as Hin; [done|].
  apply NoDup_app. split_and!; [done | | apply NoDup_singleton].
  intros x Hx ->%list_elem_of_singleton. done.
Qed.

Lemma NoDup_assign t s : NoDup t.*1 → NoDup (assign t s).*1.
Proof.
  unfold assign. revert t. induction s as [|[k0 v0] s IH]; intros t Hnd; simpl.
  - done.
  - apply IH. by apply NoDup_set_prop.
Qed.

Lemma NoDup_literal ps : NoDup (literal ps).*1.
Proof. apply NoDup_assign. simpl. apply NoDup_nil_2. Qed.

Lemma get_prop_reverse k ps : NoDup ps.*1 → get_prop k (reverse ps) = get_prop k ps.
Proof.
  induction ps as [|[k0 v0] ps IH]; simpl; [done|].
  intros [Hnotin Hnd]%NoDup_cons.
  rewrite reverse_cons, get_prop_app, IH by done. simpl.
  destruct (String.eqb_spec k k0) as [->|Hne].
  - by apply get_prop_None in Hnotin as ->.
  - by destruct (get_prop k ps).
Qed.

Lemma NoDup_entries h v : NoDup (entries h v).*1.
Proof.
  destruct v; simpl; try apply NoDup_nil_2; try apply NoDup_literal.
  destruct (h !! a) as [[?|??]|]; simpl;
    try apply NoDup_literal; apply NoDup_nil_2.
Qed.

(** Spreading the own properties of a value over a target. *)
Lemma get_prop_assign_entries k t h v :
  get_prop k (assign t (entries h v)) =
  match get_prop k (entries h v) with Some x => Some x | None => get_prop k t end.
Proof. by rewrite get_prop_assign_rev, get_prop_reverse by apply NoDup_entries. Qed.

Lemma literal_NoDup_id ps : NoDup ps.*1 → ∀ k, get_prop k (literal ps) = get_prop k ps.
Proof.
  intros Hnd k. unfold literal. rewrite get_prop_assign_rev, get_prop_reverse by done.
  by destruct (get_prop k ps).
Qed.

(** ** The assembled entry *)

Lemma entry_literal_msg h store now level message data :
  get_prop "msg" (entry_literal h store now level message data) = Some message.
Proof. unfold entry_literal. apply get_prop_set_prop_eq. Qed.

(** Every field but [msg] comes from [data] when [data] has it, and from
    the fixed fields otherwise. *)
Lemma entry_literal_field k h store now level message data :
  k ≠ "msg" →
  get_prop k (entry_literal h store now level message data) =
  match get_prop k (entries h data) with
  | Some v => Some v
  | None => get_prop k [("ts", VStr now);
                        ("level", VStr level);
                        ("userId", coalesce (ctx_get h store "userId") VNull);
                        ("txId", coalesce (ctx_get h store "txId") VNull)]
  end.
Proof.
  intros Hk. unfold entry_literal.
  rewrite get_prop_set_prop_ne by done. apply get_prop_assign_entries.
Qed.

Lemma put_prop_set_prop k v ps :
  k ≠ "__proto__" → put_prop k v ps = set_prop k v ps.
Proof.
  intros Hk. unfold put_prop. destruct (get_prop k ps); [done|].
  by destruct (String.eqb_spec k "__proto__").
Qed.

Lemma get_prop_put_prop_ne k k' v ps :
  k ≠ k' → get_prop k (put_prop k' v ps) = get_prop k ps.
Proof.
  intros Hne. unfold put_prop.
  destruct (get_prop k' ps); [by apply get_prop_set_prop_ne|].
  destruct (String.eqb k' "__proto__"); [done | by apply get_prop_set_prop_ne].
Qed.

Lemma get_prop_put_prop_eq k v ps :
  k ≠ "__proto__" → get_prop k (put_prop k v ps) = Some v.
Proof. intros Hk. rewrite put_prop_set_prop by done. apply get_prop_set_prop_eq. Qed.

Lemma NoDup_put_prop k v ps : NoDup ps.*1 → NoDup (put_prop k v ps).*1.
Proof.
  intros Hnd. unfold put_prop.
  destruct (get_prop k ps); [by apply NoDup_set_prop|].
  destruct (String.eqb k "__proto__"); [done | by apply NoDup_set_prop].
Qed.

Lemma foldl_unreserved_get k e cs :
  RESERVED_FIELDS_has k = true →
  get_prop k (foldl (λ e kv, if RESERVED_FIELDS_has kv.1 then e else put_prop kv.1 kv.2 e)
                    e cs) = get_prop k e.
Proof.
  intros Hk. revert e. induction cs as [|[k0 v0] cs IH]; intros e; simpl; [done|].
  rewrite IH. destruct (RESERVED_FIELDS_has k0) eqn:Hk0; [done|].
  apply get_prop_put_prop_ne. congruence.
Qed.

(** Lines 69-76 leave every reserved field of the entry as it was. *)
Lemma add_custom_reserved k h store e :
  RESERVED_FIELDS_has k = true →
  get_prop k (add_custom h store e) = get_prop k e.
Proof.
  intros Hk. unfold add_custom.
  destruct (truthy _); [by apply foldl_unreserved_get | done].
Qed.

Lemma NoDup_foldl_unreserved e cs :
  NoDup e.*1 →
  NoDup (foldl (λ e kv, if RESERVED_FIELDS_has kv.1 then e else put_prop kv.1 kv.2 e)
               e cs).*1.
Proof.
  revert e. induction cs as [|[k0 v0] cs IH]; intros e Hnd; simpl; [done|].
  apply IH. destruct (RESERVED_FIELDS_has k0); [done | by apply NoDup_put_prop].
Qed.

Lemma NoDup_entry_literal h store now level message data :
  NoDup (entry_literal h store now level message data).*1.
Proof.
  unfold entry_literal. apply NoDup_set_prop, NoDup_assign.
  apply (bool_decide_unpack _). by vm_compute.
Qed.

Lemma NoDup_build_entry h store now level message data :
  NoDup (build_entry h store now level message data).*1.
Proof.
  unfold build_entry, add_custom. destruct (truthy _).
  - apply NoDup_foldl_unreserved, NoDup_entry_literal.
  - apply NoDup_entry_literal.
Qed.

Lemma foldl_put_prop_assign e cs :
  "__proto__" ∉ cs.*1 →
  foldl (λ e kv, put_prop kv.1 kv.2 e) e cs = assign e cs.
Proof.
  unfold assign. revert e. induction cs as [|[k0 v0] cs IH]; intros e Hcs; [done|].
  rewrite fmap_cons, not_elem_of_cons in Hcs. destruct Hcs as [Hk0 Hcs]. simpl.
  rewrite put_prop_set_prop by done. by apply IH.
Qed.



(** ** The recursion bound is never reached *)

Lemma size_stack_push (h : heap) a (stack : list addr) :
  a ∈ dom h → a ∉ stack →
  size (dom h ∖ list_to_set (a :: stack)) < size (dom h ∖ list_to_set stack).
Proof.
  intros Hdom Hstack. apply subset_size. split.
  - set_solver.
  - intros Hsub. specialize (Hsub a). set_solver.
Qed.

Section stringify_facts.
Context {R : Type}.
Variable replacer : option (R → string → value → value * R).
Variable h : heap.

Lemma members_ok (I : R → Prop) T F ser props st :
  (∀ st k v, I st → ser_ok I T F (ser st k v)) →
  I st → ser_ok I T F (SerializeJSONObject_members ser props st).
Proof.
  intros Hser. revert st. induction props as [|[k v] props IH]; intros st Hst; simpl.
  - done.
  - specialize (Hser st k v Hst). destruct (ser st k v) as [[oj st1]| |]; simpl in *; try done.
    specialize (IH st1 Hser).
    destruct (SerializeJSONObject_members ser props st1) as [[ms st2]| |]; simpl in *; done.
Qed.

Lemma items_ok (I : R → Prop) T F ser i elems st :
  (∀ st k v, I st → ser_ok I T F (ser st k v)) →
  I st → ser_ok I T F (SerializeJSONArray_items ser i elems st).
Proof.
  intros Hser. revert i st. induction elems as [|v elems IH]; intros i st Hst; simpl.
  - done.
  - specialize (Hser st (pretty i) v Hst).
    destruct (ser st (pretty i) v) as [[oj st1]| |]; simpl in *; try done.
    specialize (IH (S i) st1 Hser).
    destruct (SerializeJSONArray_items ser (S i) elems st1) as [[ms st2]| |]; simpl in *; done.
Qed.

Lemma SerializeJSONProperty_fuel fuel stack st key v :
  size (dom h ∖ list_to_set stack) < fuel →
  SerializeJSONProperty replacer h fuel stack st key v ≠ OutOfFuel.
Proof.
  revert stack st key v. induction fuel as [|fuel IH]; intros stack st key v Hsz; [lia|].
  simpl. destruct (call_replacer replacer st key v) as [v' st'].
  destruct v' as [| | | | | |a]; try done.
  case_bool_decide as Hin; [done|].
  destruct (h !! a) as [[props|elems named]|] eqn:Ha; [| |done].
  - assert (ser_ok (λ _, True) (λ _, True) False
              (SerializeJSONObject_members
                 (SerializeJSONProperty replacer h fuel (a :: stack)) (literal props) st')) as Hok.
    { apply members_ok; [|done]. intros st1 k1 v1 _.
      assert (SerializeJSONProperty replacer h fuel (a :: stack) st1 k1 v1 ≠ OutOfFuel) as Hne.
      { apply IH. pose proof (size_stack_push h a stack) as Hlt.
        assert (a ∈ dom h) by (apply elem_of_dom; eauto). specialize (Hlt ltac:(done) Hin). lia. }
      destruct (SerializeJSONProperty _ _ _ _ _ _ _) as [[??]| |]; simpl; done. }
    destruct (SerializeJSONObject_members _ _ _) as [[??]| |]; simpl in *; done.
  - assert (ser_ok (λ _, True) (λ _, True) False
              (SerializeJSONArray_items
                 (SerializeJSONProperty replacer h fuel (a :: stack)) 0 elems st')) as Hok.
    { apply items_ok; [|done]. intros st1 k1 v1 _.
      assert (SerializeJSONProperty replacer h fuel (a :: stack) st1 k1 v1 ≠ OutOfFuel) as Hne.
      { apply IH. pose proof (size_stack_push h a stack) as Hlt.
        assert (a ∈ dom h) by (apply elem_of_dom; eauto). specialize (Hlt ltac:(done) Hin). lia. }
      destruct (SerializeJSONProperty _ _ _ _ _ _ _) as [[??]| |]; simpl; done. }
    destruct (SerializeJSONArray_items _ _ _ _) as [[??]| |]; simpl in *; done.
Qed.

(** [JSON.stringify] always comes back: with a result or with an
    exception. *)
Lemma JSON_stringify_fuel st v : JSON_stringify replacer h st v ≠ OutOfFuel.
Proof.
  unfold JSON_stringify.
  pose proof (SerializeJSONProperty_fuel (S (size h)) [] st EmptyString v) as Hne.
  destruct (SerializeJSONProperty _ _ _ _ _ _ _) as [[??]| |]; try done.
  exfalso. apply Hne; [|done].
  simpl. rewrite difference_empty_L, size_dom. lia.
Qed.

End stringify_facts.

Lemma join_parts_converts ts elems :
  (∀ v, converts (ts v)) →
  (∃ ps, join_parts ts elems = Ok ps) ∨ join_parts ts elems = Throw unprintable_error.
Proof.
  intros Hts. induction elems as [|v elems IH]; simpl; [left; by eexists|].
  assert (converts (if nullish v then Ok EmptyString else ts v)) as [[s ->]| ->].
  { destruct (nullish v); [left; by eexists | apply Hts]. }
  - simpl. destruct IH as [[ps ->]| ->]; simpl; [left; by eexists | by right].
  - by right.
Qed.

Lemma ToString_fuel_converts fuel h stack v :
  size (dom h ∖ list_to_set stack) < fuel →
  converts (ToString_fuel fuel h stack v).
Proof.
  revert stack v. induction fuel as [|fuel IH]; intros stack v Hsz; [lia|].
  simpl. destruct v as [| |[]| | | |a]; try (left; by eexists).
  destruct (h !! a) as [[props|elems named]|] eqn:Ha; [| |left; by eexists].
  { destruct (get_prop "toString" props); [by right | left; by eexists]. }
  destruct (get_prop "toString" named); [by right|].
  destruct (get_prop "join" named); [left; by eexists|].
  case_bool_decide as Hin; [left; by eexists|].
  destruct (join_parts_converts (ToString_fuel fuel h (a :: stack)) elems) as [[ps ->]| ->].
  - intros v. apply IH.
    assert (a ∈ dom h) as Hdom by (apply elem_of_dom; eauto).
    pose proof (size_stack_push h a stack Hdom Hin). lia.
  - simpl. left. by eexists.
  - by right.
Qed.

Lemma ToString_converts h v : converts (ToString h v).
Proof.
  apply ToString_fuel_converts. simpl. rewrite difference_empty_L, size_dom. lia.
Qed.

(** Primitive values always convert. *)
Lemma ToString_primitive h v :
  (∀ a, v ≠ VRef a) → ∃ s, ToString h v = Ok s.
Proof.
  intros Hv. unfold ToString. simpl.
  destruct v as [| |[]| | | |a]; try by eexists. by destruct (Hv a).
Qed.


(** ** safeStringify is cycle-safe *)

(** With the [seen] replacer installed, every object on the stack has been
    seen, so the native cycle check never fires; [seen] only grows. *)
Lemma safe_serialize_spec h fuel stack seen key v :
  list_to_set stack ⊆ seen →
  ser_ok (λ seen', seen ⊆ seen') (λ e, e ≠ circular_error) True
    (SerializeJSONProperty (Some safe_replacer) h fuel stack seen key v).
Proof.
  revert stack seen key v.
  induction fuel as [|fuel IH]; intros stack seen key v Hstack; [done|].
  simpl. destruct v as [| | | | | |a]; simpl; try done.
  case_bool_decide as Hseen; simpl; [done|].
  rewrite bool_decide_eq_false_2 by set_solver.
  destruct (h !! a) as [[props|elems named]|] eqn:Ha; simpl; [| |set_solver].
  - pose proof (members_ok (λ seen', {[a]} ∪ seen ⊆ seen') (λ e, e ≠ circular_error) True
                  (SerializeJSONProperty (Some safe_replacer) h fuel (a :: stack))
                  (literal props) ({[a]} ∪ seen)) as Hloop.
    destruct (SerializeJSONObject_members _ _ _) as [[ms seen']| |]; simpl in *;
      [| |done].
    + cut ({[a]} ∪ seen ⊆ seen'); [set_solver|]. apply Hloop; [|done].
      intros st k v Hst. specialize (IH (a :: stack) st k v).
      destruct (SerializeJSONProperty _ _ _ _ _ _ _) as [[??]| |]; simpl in *;
        [|apply IH|done]; set_solver.
    + apply Hloop; [|done].
      intros st k v Hst. specialize (IH (a :: stack) st k v).
      destruct (SerializeJSONProperty _ _ _ _ _ _ _) as [[??]| |]; simpl in *;
        [|apply IH|done]; set_solver.
  - pose proof (items_ok (λ seen', {[a]} ∪ seen ⊆ seen') (λ e, e ≠ circular_error) True
                  (SerializeJSONProperty (Some safe_replacer) h fuel (a :: stack))
                  0 elems ({[a]} ∪ seen)) as Hloop.
    destruct (SerializeJSONArray_items _ _ _ _) as [[ms seen']| |]; simpl in *;
      [| |done].
    + cut ({[a]} ∪ seen ⊆ seen'); [set_solver|]. apply Hloop; [|done].
      intros st k v Hst. specialize (IH (a :: stack) st k v).
      destruct (SerializeJSONProperty _ _ _ _ _ _ _) as [[??]| |]; simpl in *;
        [|apply IH|done]; set_solver.
    + apply Hloop; [|done].
      intros st k v Hst. specialize (IH (a :: stack) st k v).
      destruct (SerializeJSONProperty _ _ _ _ _ _ _) as [[??]| |]; simpl in *;
        [|apply IH|done]; set_solver.
Qed.

(** [safeStringify] never fails with the circular-structure error, whatever
    the shape of the object graph. *)
Lemma safeStringify_cycle_safe h obj : safeStringify h obj ≠ Throw circular_error.
Proof.
  unfold safeStringify, JSON_stringify.
  pose proof (safe_serialize_spec h (S (size h)) [] ∅ EmptyString obj) as Hspec.
  destruct (SerializeJSONProperty _ _ _ _ _ _ _) as [[??]| |]; simpl in *; try done.
  intros [= ->]. by apply Hspec.
Qed.

(** An object met a second time is printed as the marker. *)
Lemma safe_serialize_seen h fuel stack seen key a :
  a ∈ seen →
  SerializeJSONProperty (Some safe_replacer) h (S fuel) stack seen key (VRef a)
  = Ok (Some (JStr circular_marker), seen).
Proof. intros Hin. simpl. by rewrite bool_decide_eq_true_2. Qed.

(** ** The serialized event *)

Lemma size_insert_pos (h : heap) a o : ∃ n, size (<[a := o]> h) = S n.
Proof.
  destruct (size (<[a := o]> h)) as [|n] eqn:Hsz; [|by eexists].
  apply map_size_empty_iff in Hsz. by apply insert_non_empty in Hsz.
Qed.


(** Serializing an object yields an object text. *)
Lemma safeStringify_object h a props oj :
  h !! a = Some (Obj props) →
  safeStringify h (VRef a) = Ok oj → ∃ ms, oj = Some (JObj ms).
Proof.
  intros Ha. unfold safeStringify, JSON_stringify. cbn [SerializeJSONProperty call_replacer safe_replacer].
  rewrite bool_decide_eq_false_2 by set_solver.
  rewrite bool_decide_eq_false_2 by apply not_elem_of_nil.
  rewrite Ha.
  destruct (SerializeJSONObject_members _ _ _) as [[ms st]| |]; simpl; [|done..].
  intros [= <-]. by eexists.
Qed.

(** The fallback object serializes whenever its [ts] is a primitive
    other than a BigInt; the text carries the notice and the message, and
    neither [userId] nor [txId]. *)
Lemma fallback_serializes_plain (h : heap) f tsv m o :
  plain tsv = true →
  ∃ ms, JSON_stringify_plain
          (<[f := Obj [("ts", tsv); ("level", VStr "error");
                       ("msg", VStr m); ("originalMsg", VStr o)]]> h) (VRef f)
        = Ok (Some (JObj ms))
        ∧ json_get "ts" ms = prim_json tsv
        ∧ json_get "level" ms = Some (JStr "error")
        ∧ json_get "msg" ms = Some (JStr m)
        ∧ json_get "originalMsg" ms = Some (JStr o)
        ∧ json_get "userId" ms = None
        ∧ json_get "txId" ms = None.
Proof.
  intros Hts. unfold JSON_stringify_plain, JSON_stringify.
  destruct (size_insert_pos h f (Obj [("ts", tsv); ("level", VStr "error");
                                       ("msg", VStr m); ("originalMsg", VStr o)]))
    as [n ->].
  cbn [SerializeJSONProperty call_replacer].
  rewrite bool_decide_eq_false_2 by apply not_elem_of_nil.
  rewrite lookup_insert_eq.
  destruct tsv as [| |b| | | |]; try done; eexists; (split; [reflexivity|]); done.
Qed.

(** [serialize_entry] returns an object text as soon as the entry's [ts]
    is such a primitive and the message converts to a string: either the
    entry itself, or the fallback event. *)
Lemma serialize_entry_returns h entry message tsv text :
  NoDup entry.*1 →
  get_prop "ts" entry = Some tsv →
  plain tsv = true →
  ToString (<[fresh (dom h) := Obj entry]> h) message = Ok text →
  ∃ ms, serialize_entry h entry message = Ok (Some (JObj ms)).
Proof.
  intros Hnd Hts Hplain Htext. unfold serialize_entry.
  set (e := fresh (dom h)) in *. set (h1 := <[e := Obj entry]> h) in *.
  pose proof (JSON_stringify_fuel (Some safe_replacer) h1 ∅ (VRef e)) as Hfuel.
  pose proof (safeStringify_object h1 e entry) as Hobj.
  unfold safeStringify in *.
  destruct (JSON_stringify (Some safe_replacer) h1 ∅ (VRef e)) as [oj|err|]; [| |done].
  - destruct (Hobj oj) as [ms ->]; [apply lookup_insert_eq | done | by eexists].
  - rewrite Htext. simpl.
    assert (get h1 (VRef e) "ts" = tsv) as ->.
    { unfold get, entries, h1. rewrite lookup_insert_eq. simpl.
      by rewrite literal_NoDup_id, Hts. }
    destruct (fallback_serializes_plain h1 (fresh (dom h1)) tsv
                "Failed to serialize log entry" text Hplain) as (ms & -> & _).
    by eexists.
Qed.

Lemma build_entry_reserved k h store now level message data :
  RESERVED_FIELDS_has k = true →
  get_prop k (build_entry h store now level message data)
  = get_prop k (entry_literal h store now level message data).
Proof. apply add_custom_reserved. Qed.

(** The [ts] of the entry is the data's own [ts], or else the time of
    the call. *)
Lemma build_entry_ts h store now level message data :
  get_prop "ts" (build_entry h store now level message data)
  = Some (default (VStr now) (get_prop "ts" (entries h data))).
Proof.
  rewrite build_entry_reserved by done. rewrite entry_literal_field by done.
  by destruct (get_prop "ts" (entries h data)).
Qed.

(** The current [emit] returns normally on every call whose message
    converts to a string and whose data has no own [ts], or a primitive
    one: past the gate it produces one object text, the entry or the
    fallback event. *)
Lemma emit_returns cfg h store now level message data text :
  plain (default (VStr now) (get_prop "ts" (entries h data))) = true →
  ToString (<[fresh (dom h) := Obj (build_entry h store now level message data)]> h)
           message = Ok text →
  emit cfg h store now level message data = Ok Skipped
  ∨ ∃ ms, emit cfg h store now level message data
          = Ok (Emitted (Some (JObj ms)) (dispatch cfg level (Some (JObj ms)))).
Proof.
  intros Hts Htext. unfold emit. destruct (below_level _ _); [by left | right].
  destruct (serialize_entry_returns h (build_entry h store now level message data)
              message _ text (NoDup_build_entry _ _ _ _ _ _)
              (build_entry_ts _ _ _ _ _ _) Hts Htext) as [ms ->].
  by eexists.
Qed.

(** Neither variant of [emit] exhausts the recursion bound: every call
    returns or throws. *)
Lemma emit_terminates cfg h store now level message data :
  emit cfg h store now level message data ≠ OutOfFuel.
Proof.
  unfold emit. destruct (below_level _ _); [done|].
  unfold serialize_entry.
  set (h1 := <[fresh (dom h) := _]> h).
  pose proof (JSON_stringify_fuel (Some safe_replacer) h1 ∅ (VRef (fresh (dom h)))) as Hsafe.
  unfold safeStringify.
  destruct (JSON_stringify (Some safe_replacer) h1 ∅ _) as [oj|err|]; [done| |done].
  destruct (ToString_converts h1 message) as [[text ->]| ->]; [|done]. simpl.
  set (h2 := <[fresh (dom h1) := _]> h1).
  pose proof (JSON_stringify_fuel (R := unit) None h2 tt (VRef (fresh (dom h1)))) as Hplain.
  unfold JSON_stringify_plain.
  by destruct (JSON_stringify None h2 tt _).
Qed.

Lemma legacy_emit_terminates cfg h store now level message data :
  Legacy.emit cfg h store now level message data ≠ OutOfFuel.
Proof.
  unfold Legacy.emit. destruct (below_level _ _); [done|].
  unfold Legacy.serialize_entry, JSON_stringify_plain.
  set (h1 := <[fresh (dom h) := _]> h).
  pose proof (JSON_stringify_fuel (R := unit) None h1 tt (VRef (fresh (dom h)))) as Hplain.
  by destruct (JSON_stringify None h1 tt _).
Qed.

Lemma members_field {R} (ser : R → string → value → res (option json * R))
    props st ms st' k v j :
  SerializeJSONObject_members ser props st = Ok (ms, st') →
  get_prop k props = Some v →
  (∀ st, ser st k v = Ok (Some j, st)) →
  json_get k ms = Some j.
Proof.
  intros Hser Hget Hprim. revert st ms Hser Hget.
  induction props as [|[k0 v0] props IH]; intros st ms Hser Hget; simpl in *; [done|].
  destruct (String.eqb_spec k k0) as [->|Hne].
  - injection Hget as ->. rewrite Hprim in Hser. simpl in Hser.
    destruct (SerializeJSONObject_members ser props st) as [[ms1 st1]| |]; simpl in *; [|done..].
    injection Hser as <- <-. simpl. by rewrite String.eqb_refl.
  - destruct (ser st k0 v0) as [[oj st1]| |]; simpl in *; [|done..].
    destruct (SerializeJSONObject_members ser props st1) as [[ms1 st2]| |] eqn:Hrest;
      simpl in *; [|done..].
    injection Hser as <- <-. specialize (IH st1 ms1 Hrest Hget).
    destruct oj; simpl; [|done].
    by destruct (String.eqb_spec k k0).
Qed.




(** A primitive field of the entry appears unchanged in the text that
    [safeStringify] produces for it. *)
Lemma serialized_field (h : heap) e entry j k v jv :
  NoDup entry.*1 →
  safeStringify (<[e := Obj entry]> h) (VRef e) = Ok (Some j) →
  get_prop k entry = Some v →
  prim_json v = Some jv →
  json_field k j = Some jv.
Proof.
  intros Hnd Hser Hget Hprim. unfold safeStringify, JSON_stringify in Hser.
  destruct (size_insert_pos h e (Obj entry)) as [n Hn]. rewrite Hn in Hser.
  cbn [SerializeJSONProperty call_replacer safe_replacer] in Hser.
  rewrite bool_decide_eq_false_2 in Hser by set_solver.
  rewrite bool_decide_eq_false_2 in Hser by apply not_elem_of_nil.
  rewrite lookup_insert_eq in Hser.
  destruct (SerializeJSONObject_members _ _ _) as [[ms st]| |] eqn:Hms;
    simpl in Hser; [|done..].
  injection Hser as <-. simpl.
  eapply members_field; [exact Hms | by rewrite literal_NoDup_id |].
  intros st0. destruct v; simpl in *; try done; by injection Hprim as <-.
Qed.




(** ** Reserved fields *)

(** In the current variant no custom context field reaches a reserved
    field of the event: [msg] is the call's message, and the other four are
    what the object literal put there. *)
Lemma reserved_fields_protected h store now level message data :
  get_prop "msg" (build_entry h store now level message data) = Some message
  ∧ ∀ k, RESERVED_FIELDS_has k = true →
         get_prop k (build_entry h store now level message data)
         = get_prop k (entry_literal h store now level message data).
Proof.
  split.
  - rewrite build_entry_reserved by done. apply entry_literal_msg.
  - intros k Hk. by apply build_entry_reserved.
Qed.

(** The scenario of the specification, on the current variant: the spoofed
    keys are dropped. *)
Lemma emit_drops_spoofed_keys :
  emitted_output
    (spoof_scenario (λ h store, log_info initial_config h store "T" (VStr "real") VUndefined))
  = Some (JObj [("ts", JStr "T"); ("level", JStr "info");
                ("userId", JStr "alex_123"); ("txId", JStr "abc-789");
                ("msg", JStr "real")]).
Proof. vm_compute. reflexivity. Qed.

(** Whenever the current variant emits the serialized entry, the text
    shows the call's message, and the call's level unless the data itself
    names one: nothing from the custom context. *)
Lemma emit_text_reserved_fields h store now level message data j jm :
  safeStringify (<[fresh (dom h) := Obj (build_entry h store now level message data)]> h)
                (VRef (fresh (dom h))) = Ok (Some j) →
  prim_json message = Some jm →
  json_field "msg" j = Some jm
  ∧ (get_prop "level" (entries h data) = None → json_field "level" j = Some (JStr level)).
Proof.
  intros Hser Hmsg. split.
  - eapply serialized_field; [apply NoDup_build_entry | exact Hser | | exact Hmsg].
    apply reserved_fields_protected.
  - intros Hlevel.
    apply (serialized_field h _ _ j "level" (VStr level) (JStr level)
             (NoDup_build_entry _ _ _ _ _ _) Hser); [|done].
    rewrite build_entry_reserved by done. rewrite entry_literal_field by done.
    by rewrite Hlevel.
Qed.

(** C1, on the second variant of [emit] (lines 308-311): after
    [addContext({msg:'spoof', level:'error'})], the event emitted for
    [info('real')] has [msg] ['spoof'] and [level] ['error'].  The custom
    keys are merged with [Object.assign], without the reserved-field filter
    that the current variant applies. *)
Theorem legacy_emit_merges_spoofed_keys :
  emitted_output
    (spoof_scenario (λ h store,
       Legacy.emit Legacy.initial_config h store "T" "info" (VStr "real") VUndefined))
  = Some (JObj [("ts", JStr "T"); ("level", JStr "error");
                ("userId", JStr "alex_123"); ("txId", JStr "abc-789");
                ("msg", JStr "spoof")]).
Proof. vm_compute. reflexivity. Qed.

(** ** Serialization failures *)

(** C2, on the current variant (lines 78-89): [emit('info', 'm', {ts: 10n})]
    throws to its caller.  [safeStringify] fails on the BigInt, and the
    fallback object built in the [catch] block takes its [ts] from the
    entry, where the spread of the data has replaced the timestamp by the
    same BigInt; the second [JSON.stringify] is outside any [try]. *)
Theorem emit_raises_on_bigint_ts :
  emit initial_config bigint_ts_heap VUndefined "T" "info" (VStr "m") (VRef 1%positive)
  = Throw bigint_error.
Proof. vm_compute. reflexivity. Qed.

(** The same through the intercepted entry point:
    [console.log('m', {ts: 10n})]. *)
Lemma console_log_raises_on_bigint_ts :
  console_log initial_config bigint_ts_heap VUndefined "T" [VStr "m"; VRef 1%positive]
  = Throw bigint_error.
Proof. vm_compute. reflexivity. Qed.

(** The second variant has no [try] at all (line 313): any BigInt in the
    data reaches the caller. *)
Lemma legacy_emit_raises_on_bigint :
  Legacy.emit Legacy.initial_config bigint_heap VUndefined "T" "info" (VStr "m")
    (VRef 1%positive)
  = Throw bigint_error.
Proof. vm_compute. reflexivity. Qed.

(** The same call on the current variant produces the fallback event. *)
Lemma emit_falls_back_on_bigint :
  emitted_output
    (emit initial_config bigint_heap VUndefined "T" "info" (VStr "m") (VRef 1%positive))
  = Some (JObj [("ts", JStr "T"); ("level", JStr "error");
                ("msg", JStr "Failed to serialize log entry");
                ("originalMsg", JStr "m")]).
Proof. vm_compute. reflexivity. Qed.

(** ** Reference cycles *)

(** C3, on the second variant of [emit] (line 313): a call whose data
    refers to itself throws the circular-structure TypeError to its
    caller; [JSON.stringify] is called directly, not [safeStringify]. *)
Theorem legacy_emit_raises_on_cycle :
  Legacy.emit Legacy.initial_config cyclic_heap VUndefined "T" "info" (VStr "m")
    (VRef 1%positive)
  = Throw circular_error.
Proof. vm_compute. reflexivity. Qed.

(** On the current variant the same call emits the entry.  The entry holds
    a copy of the data's properties, so the data object is printed once
    and its reference to itself is replaced by the marker. *)
Lemma emit_marks_cycle :
  emitted_output
    (emit initial_config cyclic_heap VUndefined "T" "info" (VStr "m") (VRef 1%positive))
  = Some (JObj [("ts", JStr "T"); ("level", JStr "info");
                ("userId", JNull); ("txId", JNull);
                ("n", JNum 1);
                ("self", JObj [("n", JNum 1); ("self", JStr "[Circular]")]);
                ("msg", JStr "m")]).
Proof. vm_compute. reflexivity. Qed.

(** Through the fallback of the [catch] block a cycle can still reach
    the caller of the current variant: here [safeStringify] fails on the
    BigInt, and the fallback object holds the cyclic data as its [ts]. *)
Lemma emit_raises_on_cyclic_ts :
  emit initial_config cyclic_ts_heap VUndefined "T" "info" (VStr "m") (VRef 1%positive)
  = Throw circular_error.
Proof. vm_compute. reflexivity. Qed.

(** ** Shared references *)

Lemma shared_heap_points_to a b : points_to shared_heap a b → a = 1%positive ∧ b = 2%positive.
Proof.
  intros (o & Hlook & Hin). unfold shared_heap in Hlook.
  destruct (decide (a = 2%positive)) as [->|Hne2].
  - rewrite lookup_insert_eq in Hlook. injection Hlook as <-.
    vm_compute in Hin. by apply elem_of_nil in Hin.
  - rewrite lookup_insert_ne in Hlook by done.
    destruct (decide (a = 1%positive)) as [->|Hne1].
    + rewrite lookup_insert_eq in Hlook. injection Hlook as <-.
      split; [done|]. vm_compute in Hin.
      apply list_elem_of_In in Hin. simpl in Hin. naive_solver.
    + by rewrite lookup_insert_ne, lookup_empty in Hlook.
Qed.

Lemma shared_heap_acyclic : acyclic shared_heap.
Proof.
  intros a Htc.
  assert (∀ x y, tc (points_to shared_heap) x y → x = 1%positive ∧ y = 2%positive) as Hends.
  { intros x y Hxy. induction Hxy as [x y Hstep|x y z Hstep _ [_ ->]].
    - by apply shared_heap_points_to.
    - by apply shared_heap_points_to in Hstep as [-> _]. }
  apply Hends in Htc as [-> [=]].
Qed.

(** C10: there is an acyclic input, an object referenced from two
    properties of its parent, on which [safeStringify] prints the second
    reference as the marker although plain [JSON.stringify] serializes it
    in full. *)
Theorem safeStringify_marks_shared_reference :
  ∃ (h : heap) (obj shared : addr),
    acyclic h
    ∧ get h (VRef obj) "a" = VRef shared
    ∧ get h (VRef obj) "b" = VRef shared
    ∧ JSON_stringify_plain h (VRef obj)
      = Ok (Some (JObj [("a", JObj [("x", JNum 1)]); ("b", JObj [("x", JNum 1)])]))
    ∧ safeStringify h (VRef obj)
      = Ok (Some (JObj [("a", JObj [("x", JNum 1)]); ("b", JStr circular_marker)])).
Proof.
  exists shared_heap, 1%positive, 2%positive.
  split; [apply shared_heap_acyclic|]. by vm_compute.
Qed.

(** ** Level gating *)

Lemma LOG_LEVELS_order :
  LOG_LEVELS "debug" = Rank 0 ∧ LOG_LEVELS "info" = Rank 1 ∧ LOG_LEVELS "warn" = Rank 2
  ∧ LOG_LEVELS "error" = Rank 3 ∧ LOG_LEVELS "none" = Rank 4.
Proof. by vm_compute. Qed.

(** The gate itself: a call whose level ranks below the configured
    minimum produces no event and no output, whatever it is given; a call
    at or above it is never dropped.  Such a call hands exactly one event
    to the sinks when its message converts to a string and its data has no
    own [ts] or a primitive one. *)
Lemma level_gating cfg h store now level message data rank minimum :
  LOG_LEVELS level = Rank rank →
  currentLevel cfg = Rank minimum →
  ((rank < minimum)%nat →
   emit cfg h store now level message data = Ok Skipped)
  ∧ ((minimum ≤ rank)%nat →
     emit cfg h store now level message data ≠ Ok Skipped
     ∧ (plain (default (VStr now) (get_prop "ts" (entries h data))) = true →
        converts_to_text
          (ToString (<[fresh (dom h) := Obj (build_entry h store now level message data)]> h)
                    message) →
        ∃ ms, emit cfg h store now level message data
              = Ok (Emitted (Some (JObj ms)) (dispatch cfg level (Some (JObj ms)))))).
Proof.
  intros Hrank Hmin. split.
  - intros Hlt. unfold emit, below_level. rewrite Hrank, Hmin.
    by apply Nat.ltb_lt in Hlt as ->.
  - intros Hle.
    assert (below_level level (currentLevel cfg) = false) as Hgate.
    { unfold below_level. rewrite Hrank, Hmin. apply Nat.ltb_ge. lia. }
    split.
    + unfold emit. rewrite Hgate.
      by destruct (serialize_entry _ _ _).
    + intros Hts [text Htext].
      destruct (emit_returns cfg h store now level message data text Hts Htext)
        as [Hskip|Hev]; [|done].
      unfold emit in Hskip. rewrite Hgate in Hskip.
      by destruct (serialize_entry _ _ _).
Qed.

(** The gate of the second variant (line 295) is the same. *)
Lemma legacy_level_gating cfg h store now level message data rank minimum :
  LOG_LEVELS level = Rank rank →
  Legacy.currentLevel cfg = Rank minimum →
  ((rank < minimum)%nat →
   Legacy.emit cfg h store now level message data = Ok Skipped)
  ∧ ((minimum ≤ rank)%nat →
     Legacy.emit cfg h store now level message data ≠ Ok Skipped).
Proof.
  intros Hrank Hmin. unfold Legacy.emit, below_level. rewrite Hrank, Hmin. split.
  - by intros ->%Nat.ltb_lt.
  - intros Hle. assert ((rank <? minimum)%nat = false) as ->.
    { apply Nat.ltb_ge. lia. }
    by destruct (Legacy.serialize_entry _ _).
Qed.

(** With minimum level [warn], [debug] and [info] calls produce nothing,
    [warn] and [error] calls produce one event each, on the console method
    of their level. *)
Lemma level_gating_warn :
  ∃ cfg,
    replaceConsole plain_fs initial_config
      {| level := Some "warn"; output := None; filePath := None |}
    = Ok cfg
    ∧ log_debug cfg ∅ VUndefined "T" (VStr "m") VUndefined = Ok Skipped
    ∧ log_info cfg ∅ VUndefined "T" (VStr "m") VUndefined = Ok Skipped
    ∧ (∃ j line, log_warn cfg ∅ VUndefined "T" (VStr "m") VUndefined
                 = Ok (Emitted (Some j) [(ConsoleWarn, line)]))
    ∧ (∃ j line, log_error cfg ∅ VUndefined "T" (VStr "m") VUndefined
                 = Ok (Emitted (Some j) [(ConsoleError, line)])).
Proof.
  eexists. split; [reflexivity|].
  split; [by vm_compute|]. split; [by vm_compute|].
  split; vm_compute; by do 2 eexists.
Qed.

(** C5: with minimum level [warn], the call [log.warn('m', {ts: 10n})]
    ranks at the minimum and yet produces no event: it throws.  The entry
    fails to serialize, and the fallback object, built from the same
    [ts], fails in turn, outside the [try].  In the second variant a
    [warn] call with data [{n: 10n}] throws as well. *)
Theorem warn_call_at_minimum_produces_no_event :
  ∃ cfg legacy,
    replaceConsole plain_fs initial_config
      {| level := Some "warn"; output := None; filePath := None |} = Ok cfg
    ∧ Legacy.replaceConsole plain_fs
        {| level := Some "warn"; output := None; filePath := None |} = Ok legacy
    ∧ LOG_LEVELS "warn" = Rank 2
    ∧ currentLevel cfg = Rank 2
    ∧ log_warn cfg bigint_ts_heap VUndefined "T" (VStr "m") (VRef 1%positive)
      = Throw bigint_error
    ∧ Legacy.emit legacy bigint_heap VUndefined "T" "warn" (VStr "m") (VRef 1%positive)
      = Throw bigint_error.
Proof. do 2 eexists. by vm_compute. Qed.

(** ** Initialization without a file path *)

(** C6, as stated, fails: [replaceConsole({output: 'file'})] returns
    normally, whatever the file system, and an error-level call made
    afterwards is written nowhere. *)
Lemma replaceConsole_accepts_missing_filePath :
  (∀ fs, ¬ ∃ e, replaceConsole fs initial_config
                  {| level := None; output := Some "file"; filePath := None |} = Throw e)
  ∧ (∀ fs, replaceConsole fs initial_config
             {| level := None; output := Some "file"; filePath := None |}
           = Ok {| currentLevel := Rank 1; outputMode := "file"; logFileStream := None |})
  ∧ ∃ j, log_error {| currentLevel := Rank 1; outputMode := "file"; logFileStream := None |}
           ∅ VUndefined "T" (VStr "disk failure") VUndefined
         = Ok (Emitted (Some j) []).
Proof.
  split; [by intros fs [e [=]]|]. split; [reflexivity|].
  vm_compute. by eexists.
Qed.

(** C6, amended: when file output is selected and [filePath] is omitted
    (or empty), initialization returns normally, whatever the file system;
    the requested mode is recorded and the call opens no stream.  Every
    later event goes to the console method of its level under mode [both]
    and to no console under mode [file]; it goes to a file exactly when an
    earlier initialization had opened a stream, which the current variant
    keeps in use.  The second variant forgets its path on every call, so
    that it writes to the console under [both] and nowhere under [file].
    On a first initialization of either variant no stream exists. *)
Theorem replaceConsole_without_filePath fs cfg options :
  filePath options = None ∨ filePath options = Some EmptyString →
  output options = Some "file" ∨ output options = Some "both" →
  ∃ cfg' legacy,
    replaceConsole fs cfg options = Ok cfg'
    ∧ Legacy.replaceConsole fs options = Ok legacy
    ∧ output options = Some (outputMode cfg')
    ∧ output options = Some (Legacy.outputMode legacy)
    ∧ logFileStream cfg' = logFileStream cfg
    ∧ Legacy.logFilePath legacy = None
    ∧ ∀ level out,
        dispatch cfg' level out
        = (match logFileStream cfg with
           | Some p => [(FileSink p, (output_text out ++ newline)%string)]
           | None => []
           end
           ++ if String.eqb (outputMode cfg') "both"
              then [(console_sink level, output_text out)] else [])%list
        ∧ Legacy.dispatch legacy level out
          = (if String.eqb (Legacy.outputMode legacy) "both"
             then [(console_sink level, output_text out)] else []).
Proof.
  intros Hpath Hmode.
  assert (replaceConsole fs cfg options
          = Ok {| currentLevel := level_or_info (default "info" (level options));
                  outputMode := default "console" (output options);
                  logFileStream := logFileStream cfg |}) as ->.
  { unfold replaceConsole. by destruct Hpath as [->| ->]. }
  assert (Legacy.replaceConsole fs options
          = Ok {| Legacy.currentLevel := level_or_info (default "info" (level options));
                  Legacy.outputMode := default "console" (output options);
                  Legacy.logFilePath := None |}) as ->.
  { unfold Legacy.replaceConsole. by destruct Hpath as [->| ->]. }
  do 2 eexists. split; [reflexivity|]. split; [reflexivity|].
  cbn [outputMode logFileStream Legacy.outputMode Legacy.logFilePath].
  assert (∀ level text,
            console_writes (default "console" (output options)) level text
            = if String.eqb (default "console" (output options)) "both"
              then [(console_sink level, text)] else []) as Hconsole.
  { intros level text. unfold console_writes, console_sink.
    destruct Hmode as [->| ->]; cbn [default]; [done|].
    cbn [String.eqb Ascii.eqb Bool.eqb orb].
    by destruct (String.eqb level "error"), (String.eqb level "warn"). }
  split; [by destruct Hmode as [->| ->]|]. split; [by destruct Hmode as [->| ->]|].
  split; [done|]. split; [done|].
  intros level out. unfold dispatch, Legacy.dispatch.
  cbn [outputMode logFileStream Legacy.outputMode Legacy.logFilePath].
  rewrite Hconsole. split; [|done].
  destruct (logFileStream cfg); [|done].
  by destruct Hmode as [->| ->].
Qed.

Lemma replaceConsole_without_filePath_witness :
  ∃ cfg',
    replaceConsole plain_fs initial_config
      {| level := None; output := Some "file"; filePath := None |}
    = Ok cfg'
    ∧ logFileStream cfg' = None
    ∧ ∀ level out, dispatch cfg' level out = [].
Proof.
  destruct (replaceConsole_without_filePath plain_fs initial_config
              {| level := None; output := Some "file"; filePath := None |})
    as (cfg' & legacy & Hret & _ & Hmode & _ & Hstream & _ & Hdispatch);
    [left; reflexivity | left; reflexivity |].
  exists cfg'. split; [exact Hret|]. split; [exact Hstream|].
  intros level out. destruct (Hdispatch level out) as [-> _].
  injection Hmode as <-. reflexivity.
Defined.

(** ** Structured data and the fixed fields *)







(** ** Establishing, capturing and restoring a context *)

Lemma randomUUID_inj n m : randomUUID n = randomUUID m → n = m.
Proof.
  unfold randomUUID. simpl. intros [= Heq].
  change (pretty n = pretty m) in Heq. by apply (inj pretty) in Heq.
Qed.

Lemma get_record (h : heap) s userId txId custom :
  let h' := <[s := Obj [("userId", userId); ("txId", txId); ("custom", custom)]]> h in
  get h' (VRef s) "userId" = userId
  ∧ get h' (VRef s) "txId" = txId
  ∧ get h' (VRef s) "custom" = custom.
Proof. simpl. unfold get, entries. rewrite lookup_insert_eq. repeat split; reflexivity. Qed.

(** C8: [withContext(seed, fn)] runs [fn] under a new record and returns
    what [fn] returns.  The record's [userId] is the seed's (null when the
    seed has none); its [txId] is the seed's when the seed has one, and
    otherwise the next identifier drawn from [randomUUID], different from
    every identifier drawn before. *)
Theorem withContext_establishes {A} (w : world) (ctx : value) (fn : value → world → A) :
  nullish ctx = false →
  ∃ store w',
    withContext w ctx fn = Ok (fn store w')
    ∧ get (w_heap w') store "userId" = coalesce (get (w_heap w) ctx "userId") VNull
    ∧ (nullish (get (w_heap w) ctx "txId") = false →
       get (w_heap w') store "txId" = get (w_heap w) ctx "txId"
       ∧ w_uuids w' = w_uuids w)
    ∧ (nullish (get (w_heap w) ctx "txId") = true →
       get (w_heap w') store "txId" = VStr (randomUUID (w_uuids w))
       ∧ w_uuids w' = S (w_uuids w)
       ∧ ∀ n, (n < w_uuids w)%nat → randomUUID n ≠ randomUUID (w_uuids w)).
Proof.
  intros Hctx. unfold withContext, run. rewrite Hctx.
  destruct (nullish (get (w_heap w) ctx "txId")) eqn:Htx;
    destruct (nullish (get (w_heap w) ctx "custom")) eqn:Hcustom;
    eexists _, _; (split; [reflexivity|]); cbn [w_heap w_uuids];
    (split; [apply get_record|]); split; intros ?; try done;
    (split; [apply get_record|]); try done.
  all: split; [done|]; intros n Hn Heq%randomUUID_inj; lia.
Qed.

Lemma withContext_establishes_witness :
  ∃ store w',
    withContext {| w_heap := spoof_heap; w_uuids := 0 |} (VRef 2%positive)
                (λ store w, get (w_heap w) store "txId")
    = Ok (get (w_heap w') store "txId")
    ∧ get (w_heap w') store "userId" = VStr "alex_123"
    ∧ get (w_heap w') store "txId" = VStr "abc-789".
Proof.
  destruct (withContext_establishes {| w_heap := spoof_heap; w_uuids := 0 |}
              (VRef 2%positive) (λ store w, get (w_heap w) store "txId"))
    as (store & w' & Hret & Huser & Hseed & _); [reflexivity|].
  exists store, w'. split; [exact Hret|]. split; [exact Huser|].
  apply Hseed. reflexivity.
Defined.

Lemma falsy_entries h v : truthy v = false → entries h v = [].
Proof.
  destruct v as [| |[]|n|n|s|a]; simpl; try done.
  destruct s; [done | discriminate].
Qed.

Lemma ctx_get_entries h store k :
  ctx_get h store k = default VUndefined (get_prop k (entries h store)).
Proof.
  unfold ctx_get, get. destruct (truthy store) eqn:Htruthy; [done|].
  by rewrite falsy_entries.
Qed.

(** What [emit] reads as identity depends on the store's own properties
    only. *)
Lemma identity_of_entries h h' store store' :
  (∀ k, k = "userId" ∨ k = "txId" →
        get_prop k (entries h' store') = get_prop k (entries h store)) →
  identity_of h' store' = identity_of h store.
Proof.
  intros Hsame. unfold identity_of. rewrite !ctx_get_entries.
  by rewrite !Hsame by tauto.
Qed.

(** The identity fields of an entry: the data's own, or else the
    store's. *)
Lemma build_entry_identity h store now level message data :
  get_prop "userId" (build_entry h store now level message data)
  = Some (default (identity_of h store).1 (get_prop "userId" (entries h data)))
  ∧ get_prop "txId" (build_entry h store now level message data)
    = Some (default (identity_of h store).2 (get_prop "txId" (entries h data))).
Proof.
  rewrite !build_entry_reserved by done. rewrite !entry_literal_field by done.
  split.
  - by destruct (get_prop "userId" (entries h data)).
  - by destruct (get_prop "txId" (entries h data)).
Qed.

(** The same in the emitted text, whenever the entry serializes. *)
Lemma emit_text_identity h store now level message data j ju jt :
  safeStringify (<[fresh (dom h) := Obj (build_entry h store now level message data)]> h)
                (VRef (fresh (dom h))) = Ok (Some j) →
  prim_json (default (identity_of h store).1 (get_prop "userId" (entries h data))) = Some ju →
  prim_json (default (identity_of h store).2 (get_prop "txId" (entries h data))) = Some jt →
  json_field "userId" j = Some ju ∧ json_field "txId" j = Some jt.
Proof.
  intros Hser Hu Ht.
  destruct (build_entry_identity h store now level message data) as [Huser Htx].
  split.
  - exact (serialized_field h _ _ j "userId" _ ju (NoDup_build_entry _ _ _ _ _ _) Hser Huser Hu).
  - exact (serialized_field h _ _ j "txId" _ jt (NoDup_build_entry _ _ _ _ _ _) Hser Htx Ht).
Qed.

(** ** Chain isolation *)

Lemma get_prop_reverse_set_prop_ne k k' v ps :
  k ≠ k' → get_prop k (reverse (set_prop k' v ps)) = get_prop k (reverse ps).
Proof.
  intros Hne. induction ps as [|[k0 v0] ps IH]; simpl.
  - by destruct (String.eqb_spec k k').
  - destruct (String.eqb_spec k' k0) as [<-|Hne0].
    + rewrite !reverse_cons, !get_prop_app. simpl.
      by destruct (String.eqb_spec k k').
    + by rewrite !reverse_cons, !get_prop_app, IH.
Qed.

Lemma get_prop_literal k ps : get_prop k (literal ps) = get_prop k (reverse ps).
Proof.
  unfold literal. rewrite get_prop_assign_rev. by destruct (get_prop k (reverse ps)).
Qed.

(** Writing one property of an object leaves its other properties, and
    all other objects, as they were. *)
Lemma set_field_lookup_ne (h : heap) s k v a :
  a ≠ s → set_field h s k v !! a = h !! a.
Proof.
  intros Hne. unfold set_field.
  destruct (h !! s) as [[props|elems named]|]; by rewrite lookup_insert_ne.
Qed.

Lemma set_field_entries (h : heap) s k v k' :
  k' ≠ k →
  get_prop k' (entries (set_field h s k v) (VRef s)) = get_prop k' (entries h (VRef s)).
Proof.
  intros Hne. unfold set_field, entries.
  destruct (h !! s) as [[props|elems named]|] eqn:Hs; rewrite lookup_insert_eq; simpl.
  - by rewrite !get_prop_literal, get_prop_reverse_set_prop_ne.
  - by rewrite !get_prop_literal, !reverse_app, !get_prop_app,
      get_prop_reverse_set_prop_ne.
  - by destruct (String.eqb_spec k' k).
Qed.

Lemma dom_set_field (h : heap) s k v a : a ∈ dom h → a ∈ dom (set_field h s k v).
Proof.
  intros Ha. unfold set_field.
  destruct (h !! s) as [[props|elems named]|]; rewrite dom_insert_L; set_solver.
Qed.

Lemma extends_alloc (h : heap) o : extends h (<[fresh (dom h) := o]> h).
Proof.
  intros a Ha. apply lookup_insert_ne. intros <-. by apply is_fresh in Ha.
Qed.

Lemma extends_dom h h' a : extends h h' → a ∈ dom h → a ∈ dom h'.
Proof.
  intros Hext Ha. apply elem_of_dom. rewrite Hext by done. by apply elem_of_dom.
Qed.

Lemma extends_trans h1 h2 h3 : extends h1 h2 → extends h2 h3 → extends h1 h3.
Proof.
  intros H12 H23 a Ha. rewrite H23 by (by eapply extends_dom). by apply H12.
Qed.

Lemma extends_entries h h' a : extends h h' → a ∈ dom h → entries h' (VRef a) = entries h (VRef a).
Proof. intros Hext Ha. unfold entries. by rewrite Hext. Qed.


(** [addContext], called by any chain, leaves the identity of every
    established record in place: it writes [custom] only, on the caller's
    own record, and allocates the merged object at a fresh address. *)
Lemma record_ok_addContext h store fields h' c :
  addContext h store fields = Ok h' → record_ok h c → record_ok h' c.
Proof.
  unfold addContext. destruct (truthy store); [|by intros [= <-]].
  destruct store as [| | | | | |s]; try done. intros [= <-].
  intros (a & Hstore & Ha & Hid). exists a. split; [done|].
  set (h1 := <[fresh (dom h) := _]> h).
  assert (extends h h1) as Hext by apply extends_alloc.
  split; [by apply dom_set_field, (extends_dom h)|].
  rewrite <- Hid. apply identity_of_entries. intros k Hk.
  rewrite <- (extends_entries h h1) by done.
  destruct (decide (a = s)) as [->|Hne].
  - apply set_field_entries. by destruct Hk as [-> | ->].
  - unfold entries. by rewrite set_field_lookup_ne.
Qed.

















(** The events of that run: each chain reports its own identity, also
    after chain 1 has put a [userId] into its custom context. *)
Lemma interleaving_events :
  map (λ e, (ev_chain e, emitted_output (ev_result e)))
      (sys_events (exec initial_config (idle two_seeds) interleaving))
  = [(0%nat, Some (JObj [("ts", JStr "T1"); ("level", JStr "info");
                         ("userId", JStr "alice"); ("txId", JStr "tx-a");
                         ("msg", JStr "a1")]));
     (1%nat, Some (JObj [("ts", JStr "T3"); ("level", JStr "info");
                         ("userId", JStr "bob"); ("txId", JStr "uuid-0");
                         ("msg", JStr "b1"); ("step", JNum 1)]));
     (0%nat, Some (JObj [("ts", JStr "T4"); ("level", JStr "warn");
                         ("userId", JStr "alice"); ("txId", JStr "tx-a");
                         ("msg", JStr "a2")]))].
Proof. vm_compute. reflexivity. Qed.

(** The scenario of the specification: a request with [req.user.id]
    ['alex_123'] and inbound header ['abc-789'], then an info-level call
    with message ['contact created']. *)
Lemma request_scenario :
  let handled :=
    loggerMiddleware default_options {| w_heap := request_heap; w_uuids := 0 |}
      (VRef 2%positive)
      (λ name, if String.eqb name "x-transaction-id" then VStr "abc-789" else VUndefined)
      (λ store w, log_info initial_config (w_heap w) store "T" (VStr "contact created")
                           VUndefined) in
  response_header handled = ("x-transaction-id", VStr "abc-789")
  ∧ emitted_output (next_result handled)
    = Some (JObj [("ts", JStr "T"); ("level", JStr "info");
                  ("userId", JStr "alex_123"); ("txId", JStr "abc-789");
                  ("msg", JStr "contact created")]).
Proof. vm_compute. split; reflexivity. Qed.

(** ** Capturing and restoring a context *)





(** * Further properties of the code *)

(** ** safeStringify (lines 39-50) *)











Lemma visit_members fuel h stack vs X Y props :
  (∀ X0 k v Y0, visit_once fuel h X0 v = Some Y0 →
     SerializeJSONProperty (Some safe_replacer) h fuel stack X0 k v
     = with_seen Y0 (SerializeJSONProperty None h fuel stack tt k v)) →
  vs = props.*2 →
  visit_all (visit_once fuel h) vs X = Some Y →
  SerializeJSONObject_members (SerializeJSONProperty (Some safe_replacer) h fuel stack) props X
  = with_seen Y (SerializeJSONObject_members (SerializeJSONProperty None h fuel stack) props tt).
Proof.
  intros Hser. revert vs X. induction props as [|[k v] props IH]; intros vs X -> Hvisit.
  - simpl in *. by injection Hvisit as <-.
  - simpl in Hvisit. destruct (visit_once fuel h X v) as [X1|] eqn:Hv; [|done].
    simpl. rewrite (Hser X k v X1 Hv).
    destruct (SerializeJSONProperty None h fuel stack tt k v) as [[oj []]| |]; simpl; [|done..].
    rewrite (IH _ X1 eq_refl Hvisit).
    by destruct (SerializeJSONObject_members _ props tt) as [[ms []]| |].
Qed.

Lemma visit_items fuel h stack elems i X Y :
  (∀ X0 k v Y0, visit_once fuel h X0 v = Some Y0 →
     SerializeJSONProperty (Some safe_replacer) h fuel stack X0 k v
     = with_seen Y0 (SerializeJSONProperty None h fuel stack tt k v)) →
  visit_all (visit_once fuel h) elems X = Some Y →
  SerializeJSONArray_items (SerializeJSONProperty (Some safe_replacer) h fuel stack) i elems X
  = with_seen Y (SerializeJSONArray_items (SerializeJSONProperty None h fuel stack) i elems tt).
Proof.
  intros Hser. revert i X. induction elems as [|v elems IH]; intros i X Hvisit.
  - simpl in *. by injection Hvisit as <-.
  - simpl in Hvisit. destruct (visit_once fuel h X v) as [X1|] eqn:Hv; [|done].
    simpl. rewrite (Hser X (pretty i) v X1 Hv).
    destruct (SerializeJSONProperty None h fuel stack tt (pretty i) v) as [[oj []]| |];
      simpl; [|done..].
    rewrite (IH (S i) X1 Hvisit).
    by destruct (SerializeJSONArray_items _ (S i) elems tt) as [[ms []]| |].
Qed.

(** As long as the walk meets no object twice, the [seen] replacer hands
    every value through, and the serializer does what it does without a
    replacer. *)
Lemma visit_serialize fuel h stack X key v Y :
  visit_once fuel h X v = Some Y →
  SerializeJSONProperty (Some safe_replacer) h fuel stack X key v
  = with_seen Y (SerializeJSONProperty None h fuel stack tt key v).
Proof.
  revert stack X key v Y. induction fuel as [|fuel IH]; intros stack X key v Y Hvisit; [done|].
  simpl in Hvisit. destruct v as [| | | | | |a]; simpl; try (by injection Hvisit as <-).
  case_bool_decide as HX; [done|]. simpl.
  case_bool_decide as Hstack; [done|].
  destruct (h !! a) as [[props|elems named]|] eqn:Ha; simpl in *.
  - rewrite (visit_members fuel h (a :: stack) _ _ Y (literal props)
               (λ X0 k v0 Y0, IH (a :: stack) X0 k v0 Y0) eq_refl Hvisit).
    by destruct (SerializeJSONObject_members _ (literal props) tt) as [[ms []]| |].
  - rewrite (visit_items fuel h (a :: stack) elems 0 _ Y
               (λ X0 k v0 Y0, IH (a :: stack) X0 k v0 Y0) Hvisit).
    by destruct (SerializeJSONArray_items _ 0 elems tt) as [[ms []]| |].
  - by injection Hvisit as <-.
Qed.

(** X3: on an input in which every object is referenced exactly once,
    [safeStringify] is [JSON.stringify]: same text, same exception. *)
Theorem safeStringify_is_stringify_on_trees h obj :
  tree_shaped h obj = true →
  safeStringify h obj = JSON_stringify_plain h obj.
Proof.
  unfold tree_shaped. destruct (visit_once (S (size h)) h ∅ obj) as [Y|] eqn:Hvisit; [|done].
  intros _. unfold safeStringify, JSON_stringify_plain, JSON_stringify.
  rewrite (visit_serialize _ _ _ _ _ _ _ Hvisit).
  by destruct (SerializeJSONProperty None h (S (size h)) [] tt EmptyString obj)
    as [[oj []]| |].
Qed.

Lemma safeStringify_is_stringify_on_trees_witness :
  tree_shaped nested_heap (VRef 1%positive) = true
  ∧ safeStringify nested_heap (VRef 1%positive)
    = JSON_stringify_plain nested_heap (VRef 1%positive)
  ∧ JSON_stringify_plain nested_heap (VRef 1%positive)
    = Ok (Some (JObj [("a", JObj [("b", JNum 1); ("c", JArr [JBool true; JNull])]);
                      ("d", JStr "x")])).
Proof.
  split; [by vm_compute|]. split.
  - apply (safeStringify_is_stringify_on_trees nested_heap (VRef 1%positive)).
    by vm_compute.
  - by vm_compute.
Defined.

(** ** emit (lines 55-106) *)





(** X5: every entry that [emit] assembles has the five reserved fields
    [ts], [level], [msg], [userId] and [txId], and no key twice, whatever
    the context, the data and the message. *)
Theorem entry_has_reserved_fields h store now level message data :
  Forall (λ k, is_Some (get_prop k (build_entry h store now level message data)))
         RESERVED_FIELDS
  ∧ NoDup (build_entry h store now level message data).*1.
Proof.
  split; [|apply NoDup_build_entry].
  assert (∀ k, k ≠ "msg" →
            is_Some (get_prop k [("ts", VStr now); ("level", VStr level);
                                 ("userId", coalesce (ctx_get h store "userId") VNull);
                                 ("txId", coalesce (ctx_get h store "txId") VNull)]) →
            is_Some (get_prop k (build_entry h store now level message data))) as Hfixed.
  { intros k Hk Hsome. unfold build_entry, add_custom.
    assert (is_Some (get_prop k (entry_literal h store now level message data))) as Hlit.
    { rewrite entry_literal_field by done. by destruct (get_prop k (entries h data)). }
    destruct (truthy _); [|done].
    revert Hlit. generalize (entry_literal h store now level message data).
    induction (entries h (ctx_get h store "custom")) as [|[k0 v0] cs IH]; intros e He; [done|].
    simpl. apply IH. destruct (RESERVED_FIELDS_has k0); [done|].
    unfold put_prop.
    destruct (get_prop k0 e); [|destruct (String.eqb k0 "__proto__"); [done|]];
      rewrite get_prop_set_prop; by destruct (String.eqb k k0). }
  unfold RESERVED_FIELDS. repeat apply Forall_cons_2; try apply Forall_nil_2;
    try (apply Hfixed; [done | by eexists]).
  destruct (reserved_fields_protected h store now level message data) as [-> _].
  by eexists.
Qed.





Lemma foldl_unreserved_field k e cs :
  RESERVED_FIELDS_has k = false →
  k ≠ "__proto__" →
  get_prop k (foldl (λ e kv, if RESERVED_FIELDS_has kv.1 then e else put_prop kv.1 kv.2 e)
                    e cs)
  = match get_prop k (reverse cs) with Some v => Some v | None => get_prop k e end.
Proof.
  intros Hk Hproto. revert e. induction cs as [|[k0 v0] cs IH]; intros e; simpl; [done|].
  rewrite IH, reverse_cons, get_prop_app. simpl.
  destruct (get_prop k (reverse cs)); [done|].
  destruct (RESERVED_FIELDS_has k0) eqn:Hk0.
  - destruct (String.eqb_spec k k0) as [->|?]; [congruence | done].
  - destruct (String.eqb_spec k k0) as [<-|Hne].
    + by apply get_prop_put_prop_eq.
    + by apply get_prop_put_prop_ne.
Qed.

Lemma foldl_unreserved_proto p e cs :
  p = "__proto__" →
  get_prop p
    (foldl (λ e kv, if RESERVED_FIELDS_has kv.1 then e else put_prop kv.1 kv.2 e) e cs)
  = match get_prop p e with
    | Some d => Some (default d (get_prop p (reverse cs)))
    | None => None
    end.
Proof.
  intros Hp. revert e. induction cs as [|[k0 v0] cs IH]; intros e; simpl.
  - by destruct (get_prop p e).
  - rewrite IH, reverse_cons, get_prop_app. simpl.
    destruct (RESERVED_FIELDS_has k0) eqn:Hk0.
    + destruct (String.eqb_spec p k0) as [<-|Hne]; [by rewrite Hp in Hk0|].
      destruct (get_prop p e); [|done].
      by destruct (get_prop p (reverse cs)).
    + destruct (String.eqb_spec p k0) as [<-|Hne].
      * unfold put_prop. destruct (get_prop p e) as [d|] eqn:He.
        -- rewrite get_prop_set_prop_eq.
           by destruct (get_prop p (reverse cs)).
        -- assert (String.eqb p "__proto__" = true) as -> by (by apply String.eqb_eq).
           by rewrite He.
      * rewrite get_prop_put_prop_ne by done.
        destruct (get_prop p e); [|done].
        by destruct (get_prop p (reverse cs)).
Qed.

(** X7: for a key that is neither reserved nor [__proto__], the entry
    holds the custom context's value when the context has one, and
    otherwise the value of the call's data, if any: custom context comes
    on top of the data.  An own [__proto__] of the custom context is
    assigned, not defined: it becomes a field of the entry only in place
    of an own [__proto__] of the data. *)
Theorem custom_fields_over_data h store now level message data :
  (∀ k, RESERVED_FIELDS_has k = false → k ≠ "__proto__" →
        get_prop k (build_entry h store now level message data)
        = match custom_field h store k with
          | Some v => Some v
          | None => get_prop k (entries h data)
          end)
  ∧ get_prop "__proto__" (build_entry h store now level message data)
    = match get_prop "__proto__" (entries h data) with
      | Some d => Some (default d (custom_field h store "__proto__"))
      | None => None
      end.
Proof.
  assert (∀ k, RESERVED_FIELDS_has k = false →
            get_prop k (entry_literal h store now level message data)
            = get_prop k (entries h data)) as Hlit.
  { intros k Hk. assert (k ≠ "msg") as Hmsg by (by intros ->).
    rewrite entry_literal_field by done.
    destruct (get_prop k (entries h data)); [done|]. simpl.
    unfold RESERVED_FIELDS_has in Hk. simpl in Hk.
    destruct (String.eqb k "ts"); [done|].
    destruct (String.eqb k "level"); [done|].
    destruct (String.eqb k "msg"); [done|].
    destruct (String.eqb k "userId"); [done|].
    by destruct (String.eqb k "txId"). }
  split.
  - intros k Hk Hproto. unfold build_entry, add_custom, custom_field.
    destruct (truthy _); [|by apply Hlit].
    rewrite foldl_unreserved_field by done.
    by rewrite get_prop_reverse, Hlit by (done || apply NoDup_entries).
  - unfold build_entry, add_custom, custom_field.
    destruct (truthy _).
    + rewrite foldl_unreserved_proto, Hlit by done.
      by rewrite get_prop_reverse by apply NoDup_entries.
    + rewrite Hlit by done. by destruct (get_prop "__proto__" (entries h data)).
Qed.

Lemma custom_fields_over_data_witness :
  get_prop "step"
    (build_entry (<[4%positive := Obj [("step", VNum 2)]]>
                    (<[5%positive := Obj [("custom", VRef 3%positive)]]> two_seeds))
                 (VRef 5%positive) "T" "info" (VStr "m") (VRef 4%positive))
  = Some (VNum 1).
Proof.
  destruct (custom_fields_over_data
              (<[4%positive := Obj [("step", VNum 2)]]>
                 (<[5%positive := Obj [("custom", VRef 3%positive)]]> two_seeds))
              (VRef 5%positive) "T" "info" (VStr "m") (VRef 4%positive)) as [Hfield _].
  rewrite (Hfield "step"); [by vm_compute | reflexivity | done].
Defined.




Lemma foldl_unreserved_assign e cs :
  Forall (λ kv : string * value, RESERVED_FIELDS_has kv.1 = false) cs →
  foldl (λ e kv, if RESERVED_FIELDS_has kv.1 then e else put_prop kv.1 kv.2 e) e cs
  = foldl (λ e kv, put_prop kv.1 kv.2 e) e cs.
Proof.
  revert e. induction cs as [|[k v] cs IH]; intros e Hcs; simpl; [done|].
  apply Forall_cons in Hcs as [Hk Hcs]. simpl in Hk. rewrite Hk. by apply IH.
Qed.

(** X9: the two variants of [emit] assemble the same entry whenever the
    custom context holds no reserved key; they differ on those keys
    only. *)
Theorem variants_build_same_entry h store now level message data :
  (∀ k, RESERVED_FIELDS_has k = true → custom_field h store k = None) →
  Legacy.build_entry h store now level message data
  = build_entry h store now level message data.
Proof.
  intros Hnone. unfold Legacy.build_entry, build_entry, Legacy.add_custom, add_custom.
  destruct (truthy (ctx_get h store "custom")) eqn:Htruthy; [|done].
  symmetry. apply foldl_unreserved_assign.
  apply Forall_forall. intros [k v] Hin. simpl.
  destruct (RESERVED_FIELDS_has k) eqn:Hk; [|done].
  specialize (Hnone k Hk). unfold custom_field in Hnone. rewrite Htruthy in Hnone.
  apply get_prop_None in Hnone. exfalso. apply Hnone.
  apply list_elem_of_fmap. by exists (k, v).
Qed.

Lemma variants_build_same_entry_witness :
  Legacy.build_entry (<[5%positive := Obj [("custom", VRef 4%positive)]]>
                        (<[4%positive := Obj [("step", VNum 1)]]> ∅))
                     (VRef 5%positive) "T" "info" (VStr "m") VUndefined
  = build_entry (<[5%positive := Obj [("custom", VRef 4%positive)]]>
                   (<[4%positive := Obj [("step", VNum 1)]]> ∅))
                (VRef 5%positive) "T" "info" (VStr "m") VUndefined.
Proof.
  apply (variants_build_same_entry
           (<[5%positive := Obj [("custom", VRef 4%positive)]]>
              (<[4%positive := Obj [("step", VNum 1)]]> ∅))
           (VRef 5%positive) "T" "info" (VStr "m") VUndefined).
  intros k Hk.
  assert (custom_field (<[5%positive := Obj [("custom", VRef 4%positive)]]>
                          (<[4%positive := Obj [("step", VNum 1)]]> ∅))
                       (VRef 5%positive) k
          = get_prop k [("step", VNum 1)]) as -> by reflexivity.
  simpl. destruct (String.eqb_spec k "step") as [->|]; [discriminate Hk | reflexivity].
Defined.

(** ** replaceConsole (lines 209-256) and the sinks (lines 91-105) *)

Lemma replaceConsole_settings fs cfg options cfg' :
  replaceConsole fs cfg options = Ok cfg' →
  currentLevel cfg' = level_or_info (default "info" (level options))
  ∧ outputMode cfg' = default "console" (output options).
Proof.
  unfold replaceConsole. intros Hinit.
  destruct (filePath options) as [p|]; [|by injection Hinit as <-].
  destruct (nonempty p && file_selected _); [|by injection Hinit as <-].
  destruct (mkdir_for fs _); [done | by injection Hinit as <-].
Qed.

(** X10: an output mode other than [console], [file] and [both] is
    accepted by [replaceConsole], and from then on no event is written
    anywhere. *)
Theorem unknown_output_mode_discards fs cfg options mode :
  output options = Some mode →
  mode ≠ "console" → mode ≠ "file" → mode ≠ "both" →
  ∃ cfg', replaceConsole fs cfg options = Ok cfg'
          ∧ ∀ level out, dispatch cfg' level out = [].
Proof.
  intros Hmode Hc Hf Hb. apply String.eqb_neq in Hc, Hf, Hb.
  assert (replaceConsole fs cfg options
          = Ok {| currentLevel := level_or_info (default "info" (level options));
                  outputMode := mode;
                  logFileStream := logFileStream cfg |}) as ->.
  { unfold replaceConsole. rewrite Hmode. simpl.
    destruct (filePath options) as [p|]; [|done].
    unfold file_selected. by rewrite Hf, Hb, andb_false_r. }
  eexists. split; [reflexivity|].
  intros level out. unfold dispatch, console_writes, file_selected.
  cbn [outputMode logFileStream]. rewrite Hc, Hf, Hb. simpl.
  by destruct (logFileStream cfg).
Qed.

Lemma unknown_output_mode_discards_witness :
  ∃ cfg', replaceConsole plain_fs initial_config
            {| level := None; output := Some "stdout"; filePath := None |} = Ok cfg'
          ∧ ∀ level out, dispatch cfg' level out = [].
Proof.
  apply (unknown_output_mode_discards plain_fs initial_config
           {| level := None; output := Some "stdout"; filePath := None |} "stdout");
    [reflexivity | discriminate..].
Defined.

Lemma console_writes_sink mode level text :
  mode = "console" ∨ mode = "both" →
  console_writes mode level text = [(console_sink level, text)].
Proof.
  intros Hmode. unfold console_writes, console_sink.
  assert (String.eqb mode "console" || String.eqb mode "both" = true) as ->.
  { by destruct Hmode as [-> | ->]. }
  by destruct (String.eqb level "error"), (String.eqb level "warn").
Qed.

(** X11: initialization with a path.  Under mode [file] or [both] the
    directory of the resolved path is made first: when that fails,
    [replaceConsole] throws the error of the file system; otherwise a
    stream is opened on the resolved path, and every later event is written
    once to it, followed by one newline, and under [both] also to the
    console method of its level.  Under mode [console] (or no mode) the
    path is ignored: no directory is made, the stream variable keeps its
    value, and events go to the console only. *)
Theorem sink_routing fs cfg options p :
  filePath options = Some p →
  p ≠ EmptyString →
  (∀ mode, mode = "file" ∨ mode = "both" → output options = Some mode →
     match mkdir_for fs (resolve fs p) with
     | Some e => replaceConsole fs cfg options = Throw e
     | None =>
         ∃ cfg', replaceConsole fs cfg options = Ok cfg'
                 ∧ logFileStream cfg' = Some (resolve fs p)
                 ∧ ∀ level out,
                     dispatch cfg' level out
                     = (FileSink (resolve fs p), output_text out ++ newline)
                       :: (if String.eqb mode "both"
                           then [(console_sink level, output_text out)] else [])
     end)
  ∧ (output options = None ∨ output options = Some "console" →
     ∃ cfg', replaceConsole fs cfg options = Ok cfg'
             ∧ logFileStream cfg' = logFileStream cfg
             ∧ ∀ level out,
                 dispatch cfg' level out = [(console_sink level, output_text out)]).
Proof.
  intros Hpath Hp. apply String.eqb_neq in Hp.
  split.
  - intros mode Hmode Hout. unfold replaceConsole, nonempty.
    rewrite Hpath, Hout, Hp.
    destruct Hmode as [->| ->]; simpl;
      (destruct (mkdir_for fs (resolve fs p)); [done|]);
      (eexists; split; [reflexivity|]; split; [done|]);
      intros level out; unfold dispatch; simpl; [done|].
    by rewrite console_writes_sink by (by right).
  - intros Hout.
    assert (replaceConsole fs cfg options
            = Ok {| currentLevel := level_or_info (default "info" (level options));
                    outputMode := "console";
                    logFileStream := logFileStream cfg |}) as ->.
    { unfold replaceConsole. rewrite Hpath.
      destruct Hout as [->| ->]; simpl; by rewrite andb_false_r. }
    eexists. split; [reflexivity|]. split; [done|].
    intros level out. unfold dispatch. cbn [outputMode logFileStream].
    rewrite console_writes_sink by (by left).
    by destruct (logFileStream cfg).
Qed.

Lemma sink_routing_witness :
  ∃ cfg', replaceConsole plain_fs initial_config
            {| level := None; output := Some "both"; filePath := Some "/var/log/app.log" |}
          = Ok cfg'
          ∧ dispatch cfg' "warn" (Some JNull)
            = [(FileSink "/var/log/app.log", "null" ++ newline); (ConsoleWarn, "null")].
Proof.
  destruct (sink_routing plain_fs initial_config
              {| level := None; output := Some "both"; filePath := Some "/var/log/app.log" |}
              "/var/log/app.log" eq_refl) as [Hfile _]; [discriminate|].
  destruct (Hfile "both") as (cfg' & Hinit & _ & Hboth); [by right | reflexivity |].
  exists cfg'. split; [exact Hinit|]. apply (Hboth "warn" (Some JNull)).
Defined.

Lemma LOG_LEVELS_inherited name :
  name ∈ Object_prototype_keys → LOG_LEVELS name = Inherited.
Proof.
  intros Hin. apply list_elem_of_In in Hin. simpl in Hin.
  repeat (destruct Hin as [<-|Hin]; [reflexivity|]). done.
Qed.

Lemma LOG_LEVELS_range level rank : LOG_LEVELS level = Rank rank → (rank ≤ 4)%nat.
Proof.
  unfold LOG_LEVELS.
  repeat (destruct (String.eqb level _); [intros [= <-]; lia|]).
  by destruct (existsb _ _).
Qed.

(** X12: the minimum level that an initialization leaves.  A level
    name of [LOG_LEVELS] gives its rank; an omitted level, and a name that
    [LOG_LEVELS] does not answer to, give the rank of [info].  A name that
    the object inherits ([constructor], [toString], ...) is not replaced
    by the default: the minimum is then no number, and no call is held back
    by the gate, [debug] calls included. *)
Theorem level_option_defaults_to_info fs cfg options cfg' :
  replaceConsole fs cfg options = Ok cfg' →
  (level options = None → currentLevel cfg' = Rank 1)
  ∧ (∀ name rank, level options = Some name → LOG_LEVELS name = Rank rank →
                  currentLevel cfg' = Rank rank ∧ (rank ≤ 4)%nat)
  ∧ (∀ name, level options = Some name → LOG_LEVELS name = Undefined →
             currentLevel cfg' = Rank 1)
  ∧ (∀ name, level options = Some name → name ∈ Object_prototype_keys →
             ∀ lvl, below_level lvl (currentLevel cfg') = false).
Proof.
  intros [-> _]%replaceConsole_settings. unfold level_or_info.
  split; [by intros ->|]. split; [|split].
  - intros name rank -> Hrank. change (default "info" (Some name)) with name.
    rewrite Hrank. split; [done | by eapply LOG_LEVELS_range].
  - intros name -> Hnone. change (default "info" (Some name)) with name.
    by rewrite Hnone.
  - intros name -> Hname%LOG_LEVELS_inherited lvl.
    change (default "info" (Some name)) with name. rewrite Hname.
    unfold below_level. by destruct (LOG_LEVELS lvl).
Qed.

Lemma level_option_defaults_to_info_witness :
  ∃ cfg', replaceConsole plain_fs initial_config
            {| level := Some "constructor"; output := None; filePath := None |} = Ok cfg'
          ∧ below_level "debug" (currentLevel cfg') = false.
Proof.
  eexists. split; [reflexivity|].
  destruct (level_option_defaults_to_info plain_fs initial_config
              {| level := Some "constructor"; output := None; filePath := None |} _ eq_refl)
    as (_ & _ & _ & Hinherited).
  apply (Hinherited "constructor"); [reflexivity|].
  apply list_elem_of_In. simpl. tauto.
Defined.

Lemma console_method_skipped lvl cfg h store now args text :
  ToString (console_data h (tl args)).2 (hd VUndefined args) = Ok text →
  below_level lvl (currentLevel cfg) = true →
  console_method lvl cfg h store now args = Ok Skipped.
Proof.
  intros Htext Hgate. unfold console_method.
  destruct (console_data h (tl args)) as [data h1]. cbn [snd] in Htext.
  rewrite Htext. simpl. unfold emit. by rewrite Hgate.
Qed.

Lemma console_method_unprintable lvl cfg h store now args e :
  ToString (console_data h (tl args)).2 (hd VUndefined args) = Throw e →
  console_method lvl cfg h store now args = Throw e.
Proof.
  intros Htext. unfold console_method.
  destruct (console_data h (tl args)) as [data h1]. cbn [snd] in Htext.
  by rewrite Htext.
Qed.

(** X13: after an initialization with level [none], no call of
    [log.debug], [log.info], [log.warn] or [log.error] produces an event
    or throws, whatever it is given.  The [console] adapters produce
    nothing either; they convert their first argument to a string before
    the gate, so that they return normally when that conversion does and
    throw its exception otherwise, although logging is off. *)
Theorem level_none_is_silent fs cfg options cfg' h store now lvl :
  level options = Some "none" →
  lvl ∈ call_levels →
  replaceConsole fs cfg options = Ok cfg' →
  (∀ message data, emit cfg' h store now lvl message data = Ok Skipped)
  ∧ (∀ args text,
       ToString (console_data h (tl args)).2 (hd VUndefined args) = Ok text →
       console_method lvl cfg' h store now args = Ok Skipped)
  ∧ (∀ args e,
       ToString (console_data h (tl args)).2 (hd VUndefined args) = Throw e →
       console_method lvl cfg' h store now args = Throw e).
Proof.
  intros Hnone Hlvl [Hlevel _]%replaceConsole_settings.
  assert (below_level lvl (currentLevel cfg') = true) as Hgate.
  { rewrite Hlevel, Hnone. apply list_elem_of_In in Hlvl. simpl in Hlvl.
    destruct Hlvl as [<-|[<-|[<-|[<-|[]]]]]; reflexivity. }
  split; [|split].
  - intros message data. unfold emit. by rewrite Hgate.
  - intros args text Htext. by eapply console_method_skipped.
  - intros args e. apply console_method_unprintable.
Qed.

Lemma level_none_is_silent_witness :
  ∃ cfg', replaceConsole plain_fs initial_config
            {| level := Some "none"; output := None; filePath := None |} = Ok cfg'
          ∧ log_error cfg' bigint_ts_heap VUndefined "T" (VStr "m") (VRef 1%positive)
            = Ok Skipped
          ∧ console_error cfg' bigint_ts_heap VUndefined "T" [VStr "m"; VRef 1%positive]
            = Ok Skipped
          ∧ console_error cfg' unprintable_heap VUndefined "T" [VRef 1%positive]
            = Throw unprintable_error.
Proof.
  exists {| currentLevel := Rank 4; outputMode := "console"; logFileStream := None |}.
  split; [reflexivity|].
  destruct (level_none_is_silent plain_fs initial_config
              {| level := Some "none"; output := None; filePath := None |}
              {| currentLevel := Rank 4; outputMode := "console"; logFileStream := None |}
              bigint_ts_heap VUndefined "T" "error") as (Hemit & Hconsole & _).
  - reflexivity.
  - apply list_elem_of_In. simpl. tauto.
  - reflexivity.
  - split; [apply Hemit|]. split; [by apply (Hconsole _ "m")|].
    destruct (level_none_is_silent plain_fs initial_config
                {| level := Some "none"; output := None; filePath := None |}
                {| currentLevel := Rank 4; outputMode := "console"; logFileStream := None |}
                unprintable_heap VUndefined "T" "error") as (_ & _ & Hthrows).
    + reflexivity.
    + apply list_elem_of_In. simpl. tauto.
    + reflexivity.
    + by apply Hthrows.
Defined.

(** ** addContext (lines 126-131) *)


Lemma addContext_returns h s fields :
  ∃ h', addContext h (VRef s) fields = Ok h'.
Proof. by eexists. Qed.

(** X14: [addContext] never changes the [userId] and [txId] that [emit]
    reads from any record of the heap, the caller's own included, also
    when the fields it is given are named [userId] or [txId]. *)
Theorem addContext_keeps_identity h s fields h' a :
  addContext h (VRef s) fields = Ok h' →
  a ∈ dom h →
  identity_of h' (VRef a) = identity_of h (VRef a).
Proof.
  intros Hadd Ha.
  destruct (record_ok_addContext h (VRef s) fields h'
              {| ch_store := VRef a; ch_identity := identity_of h (VRef a); ch_todo := [] |}
              Hadd) as (a' & Hstore & _ & Hid).
  - by exists a.
  - simpl in *. by injection Hstore as <-.
Qed.

Lemma addContext_keeps_identity_witness :
  ∃ h', addContext custom_heap (VRef 2%positive) (VRef 3%positive) = Ok h'
        ∧ identity_of h' (VRef 2%positive) = (VStr "alice", VStr "tx-a").
Proof.
  destruct (addContext_returns custom_heap 2%positive (VRef 3%positive)) as [h' Hadd].
  exists h'. split; [exact Hadd|].
  rewrite (addContext_keeps_identity custom_heap 2%positive (VRef 3%positive) h' 2%positive Hadd).
  - reflexivity.
  - by vm_compute.
Defined.




(** X16: [addContext] writes the caller's record and a new object,
    nothing else: every other object of the heap (the seed and its custom
    object, the records of other chains, snapshots) is as it was, and so
    are the custom fields and the identity of every other record. *)
Theorem addContext_leaves_others h s fields h' a :
  addContext h (VRef s) fields = Ok h' →
  s ∈ dom h → a ∈ dom h → a ≠ s →
  h' !! a = h !! a
  ∧ identity_of h' (VRef a) = identity_of h (VRef a)
  ∧ ((∀ c, get h (VRef a) "custom" = VRef c → c ∈ dom h ∧ c ≠ s) →
     ∀ k, custom_field h' (VRef a) k = custom_field h (VRef a) k).
Proof.
  intros Hadd Hs Ha Hne.
  assert (∀ b, b ∈ dom h → b ≠ s → h' !! b = h !! b) as Hframe.
  { intros b Hb Hbs. injection Hadd as <-.
    rewrite set_field_lookup_ne by done. by apply extends_alloc. }
  split; [by apply Hframe|]. split.
  - apply identity_of_entries. intros k _. unfold entries. by rewrite Hframe.
  - intros Hcustom k. unfold custom_field, ctx_get. cbn [truthy].
    assert (∀ k0, get h' (VRef a) k0 = get h (VRef a) k0) as Hget.
    { intros k0. unfold get, entries. by rewrite Hframe. }
    rewrite Hget. destruct (get h (VRef a) "custom") as [| | | | | |c] eqn:Hc; try done.
    destruct (Hcustom c eq_refl) as [Hcdom Hcs].
    unfold entries. by rewrite Hframe.
Qed.

Lemma addContext_leaves_others_witness :
  ∃ snapshot h1 h2,
    captureContext custom_heap (VRef 2%positive) = (VRef snapshot, h1)
    ∧ addContext h1 (VRef 2%positive) (VRef 3%positive) = Ok h2
    ∧ custom_field h2 (VRef 2%positive) "step" = Some (VNum 2)
    ∧ custom_field h2 (VRef snapshot) "step" = Some (VNum 1)
    ∧ identity_of h2 (VRef snapshot) = (VStr "alice", VStr "tx-a").
Proof.
  destruct (addContext_returns (captureContext custom_heap (VRef 2%positive)).2
              2%positive (VRef 3%positive)) as [h2 Hadd].
  exists (fresh (dom custom_heap)), (captureContext custom_heap (VRef 2%positive)).2, h2.
  split; [reflexivity|]. split; [exact Hadd|].
  destruct (addContext_leaves_others (captureContext custom_heap (VRef 2%positive)).2
              2%positive (VRef 3%positive) h2 (fresh (dom custom_heap)) Hadd)
    as (_ & Hid & Hcustom); [by vm_compute..|].
  split; [|split].
  - injection Hadd as <-. by vm_compute.
  - rewrite Hcustom; [by vm_compute|].
    intros c Hc. vm_compute in Hc. injection Hc as <-. by vm_compute.
  - rewrite Hid. by vm_compute.
Defined.

(** ** captureContext and runWithCapturedContext (lines 192-198) *)




(** ** withContext (lines 172-179) *)

Lemma record_custom_field (h : heap) s userId txId custom k :
  custom_field (<[s := Obj [("userId", userId); ("txId", txId); ("custom", custom)]]> h)
               (VRef s) k
  = if truthy custom
    then get_prop k (entries (<[s := Obj [("userId", userId); ("txId", txId);
                                          ("custom", custom)]]> h) custom)
    else None.
Proof.
  unfold custom_field, ctx_get. cbn [truthy].
  by destruct (get_record h s userId txId custom) as (_ & _ & ->).
Qed.

(** X18: [withContext] changes no existing object; the record it
    builds is a new one, whose [custom] is the seed's own [custom] value
    (the same object, not a copy) when the seed has one and a new empty
    object otherwise.  The custom fields of the seed therefore show in the
    context from the start. *)
Theorem withContext_custom_from_seed {A} (w : world) (ctx : value) (fn : value → world → A) :
  nullish ctx = false →
  ∃ s w',
    withContext w ctx fn = Ok (fn (VRef s) w')
    ∧ (s ∉ dom (w_heap w))
    ∧ extends (w_heap w) (w_heap w')
    ∧ (nullish (get (w_heap w) ctx "custom") = false →
       get (w_heap w') (VRef s) "custom" = get (w_heap w) ctx "custom")
    ∧ (nullish (get (w_heap w) ctx "custom") = true →
       ∀ k, custom_field (w_heap w') (VRef s) k = None)
    ∧ ((∀ c, get (w_heap w) ctx "custom" = VRef c → c ∈ dom (w_heap w)) →
       nullish (get (w_heap w) ctx "custom") = false →
       ∀ k, custom_field (w_heap w') (VRef s) k
            = if truthy (get (w_heap w) ctx "custom")
              then get_prop k (entries (w_heap w) (get (w_heap w) ctx "custom"))
              else None).
Proof.
  intros Hctx. unfold withContext, run. rewrite Hctx.
  destruct (if nullish (get (w_heap w) ctx "txId")
            then (VStr (randomUUID (w_uuids w)), S (w_uuids w))
            else (get (w_heap w) ctx "txId", w_uuids w)) as [txId n1].
  destruct (nullish (get (w_heap w) ctx "custom")) eqn:Hcustom.
  - set (c := fresh (dom (w_heap w))).
    set (h1 := <[c := Obj []]> (w_heap w)).
    assert (extends (w_heap w) h1) as Hext1 by apply extends_alloc.
    assert (c ∈ dom h1) as Hc by (unfold h1; rewrite dom_insert_L; set_solver).
    assert (fresh (dom h1) ≠ c) as Hne.
    { intros Heq. apply (is_fresh (dom h1)). by rewrite Heq. }
    eexists _, _. split; [reflexivity|]. cbn [w_heap].
    split.
    { intros Hin. apply (is_fresh (dom h1)). by apply (extends_dom (w_heap w)). }
    split.
    { eapply extends_trans; [exact Hext1 | apply extends_alloc]. }
    split; [done|]. split; [|done].
    intros _ k. rewrite record_custom_field. cbn [truthy]. unfold entries.
    rewrite lookup_insert_ne by done. unfold h1. by rewrite lookup_insert_eq.
  - eexists _, _. split; [reflexivity|]. cbn [w_heap].
    split; [apply is_fresh|]. split; [apply extends_alloc|].
    split; [intros _; apply get_record|]. split; [done|].
    intros Hdom _ k. rewrite record_custom_field.
    destruct (get (w_heap w) ctx "custom") as [| | | | | |c0] eqn:Hcv; try done.
    cbn [truthy]. unfold entries. rewrite lookup_insert_ne; [done|].
    intros Heq. apply (is_fresh (dom (w_heap w))). rewrite Heq. by apply Hdom.
Qed.

Lemma withContext_custom_from_seed_witness :
  ∃ s w',
    withContext {| w_heap := custom_heap; w_uuids := 0 |} (VRef 2%positive)
                (λ store w, custom_field (w_heap w) store "orderId")
    = Ok (custom_field (w_heap w') (VRef s) "orderId")
    ∧ custom_field (w_heap w') (VRef s) "orderId" = Some (VNum 7).
Proof.
  destruct (withContext_custom_from_seed {| w_heap := custom_heap; w_uuids := 0 |}
              (VRef 2%positive) (λ store w, custom_field (w_heap w) store "orderId"))
    as (s & w' & Hret & _ & _ & _ & _ & Hcustom); [reflexivity|].
  exists s, w'. split; [exact Hret|]. rewrite Hcustom.
  - reflexivity.
  - intros c Hc. vm_compute in Hc. injection Hc as <-. by vm_compute.
  - reflexivity.
Defined.

(** ** loggerMiddleware (lines 138-161) *)

Lemma loggerMiddleware_record {A} options (w : world) req req_get (next : value → world → A) :
  ∃ s w' txId,
    loggerMiddleware options w req req_get next
    = {| response_header := ("x-transaction-id", txId); next_result := next (VRef s) w' |}
    ∧ get (w_heap w') (VRef s) "userId"
      = coalesce (foldl (optional_get (w_heap w)) req
                        (split "." (default "user.id" (userIdPath options)))) VNull
    ∧ get (w_heap w') (VRef s) "txId" = txId
    ∧ (∀ k, custom_field (w_heap w') (VRef s) k = None)
    ∧ extends (w_heap w) (w_heap w')
    ∧ (txId, w_uuids w')
      = if truthy (req_get (default "x-transaction-id" (txIdHeader options)))
        then (req_get (default "x-transaction-id" (txIdHeader options)), w_uuids w)
        else (match generateTxId options with
              | Some gen => gen (w_uuids w)
              | None => VStr (randomUUID (w_uuids w))
              end, S (w_uuids w)).
Proof.
  unfold loggerMiddleware, run.
  destruct (if truthy (req_get (default "x-transaction-id" (txIdHeader options)))
            then _ else _) as [txId n1].
  set (c := fresh (dom (w_heap w))).
  set (h1 := <[c := Obj []]> (w_heap w)).
  assert (c ∈ dom h1) as Hc by (unfold h1; rewrite dom_insert_L; set_solver).
  assert (fresh (dom h1) ≠ c) as Hne.
  { intros Heq. apply (is_fresh (dom h1)). by rewrite Heq. }
  eexists _, _, txId. split; [reflexivity|]. cbn [w_heap w_uuids].
  split; [apply get_record|]. split; [apply get_record|]. split.
  { intros k. rewrite record_custom_field. cbn [truthy]. unfold entries.
    rewrite lookup_insert_ne by done. unfold h1. by rewrite lookup_insert_eq. }
  split; [|done].
  eapply extends_trans; apply extends_alloc.
Qed.

(** X19: the middleware tags the response with exactly the [txId] of
    the record it establishes, always under the name [x-transaction-id]
    whatever inbound header name is configured.  A non-empty inbound
    header is taken as it is and no identifier is generated; an absent or
    empty one is replaced by the generator's next identifier.  The record
    starts with an empty custom context of its own. *)
Theorem loggerMiddleware_tags_response {A} options (w : world) req req_get
    (next : value → world → A) :
  ∃ s w',
    next_result (loggerMiddleware options w req req_get next) = next (VRef s) w'
    ∧ response_header (loggerMiddleware options w req req_get next)
      = ("x-transaction-id", get (w_heap w') (VRef s) "txId")
    ∧ (∀ k, custom_field (w_heap w') (VRef s) k = None)
    ∧ (truthy (req_get (default "x-transaction-id" (txIdHeader options))) = true →
       get (w_heap w') (VRef s) "txId"
       = req_get (default "x-transaction-id" (txIdHeader options))
       ∧ w_uuids w' = w_uuids w)
    ∧ (truthy (req_get (default "x-transaction-id" (txIdHeader options))) = false →
       w_uuids w' = S (w_uuids w)
       ∧ (generateTxId options = None →
          get (w_heap w') (VRef s) "txId" = VStr (randomUUID (w_uuids w)))
       ∧ (∀ gen, generateTxId options = Some gen →
                 get (w_heap w') (VRef s) "txId" = gen (w_uuids w))).
Proof.
  destruct (loggerMiddleware_record options w req req_get next)
    as (s & w' & txId & -> & _ & Htx & Hcustom & _ & Hsource).
  exists s, w'. simpl. rewrite Htx. split; [done|]. split; [done|]. split; [done|].
  split.
  - intros Hheader. rewrite Hheader in Hsource. by injection Hsource as -> ->.
  - intros Hheader. rewrite Hheader in Hsource. injection Hsource as -> ->.
    split; [done|]. split.
    + by intros ->.
    + by intros gen ->.
Qed.

Lemma loggerMiddleware_tags_response_witness :
  ∃ s w',
    next_result
      (loggerMiddleware default_options {| w_heap := request_heap; w_uuids := 3 |}
         (VRef 2%positive) (λ _, VStr EmptyString)
         (λ store w, get (w_heap w) store "txId"))
    = get (w_heap w') (VRef s) "txId"
    ∧ get (w_heap w') (VRef s) "txId" = VStr (randomUUID 3)
    ∧ w_uuids w' = 4%nat.
Proof.
  destruct (loggerMiddleware_tags_response default_options
              {| w_heap := request_heap; w_uuids := 3 |} (VRef 2%positive)
              (λ _, VStr EmptyString) (λ store w, get (w_heap w) store "txId"))
    as (s & w' & Hnext & _ & _ & _ & Hgenerated).
  exists s, w'. split; [exact Hnext|].
  destruct Hgenerated as (Hcount & Hdefault & _); [reflexivity|].
  split; [by apply Hdefault | exact Hcount].
Defined.

Lemma foldl_optional_get_nullish h v keys :
  nullish v = true → nullish (foldl (optional_get h) v keys) = true.
Proof.
  revert v. induction keys as [|k keys IH]; intros v Hv; simpl; [done|].
  apply IH. unfold optional_get. by rewrite Hv.
Qed.

(** X20: resolving the identity never fails and never leaves
    [undefined] in the record.  As soon as a segment of the path meets
    [undefined] or [null] (the request itself included), the [userId] is
    null; with the default path it is [req.user.id]. *)
Theorem loggerMiddleware_resolves_identity {A} options (w : world) req req_get
    (next : value → world → A) :
  ∃ s w',
    next_result (loggerMiddleware options w req req_get next) = next (VRef s) w'
    ∧ get (w_heap w') (VRef s) "userId" ≠ VUndefined
    ∧ (∀ pre post,
         split "." (default "user.id" (userIdPath options)) = (pre ++ post)%list →
         nullish (foldl (optional_get (w_heap w)) req pre) = true →
         get (w_heap w') (VRef s) "userId" = VNull)
    ∧ (userIdPath options = None →
       get (w_heap w') (VRef s) "userId"
       = coalesce (optional_get (w_heap w) (optional_get (w_heap w) req "user") "id") VNull).
Proof.
  destruct (loggerMiddleware_record options w req req_get next)
    as (s & w' & txId & -> & Huser & _).
  exists s, w'. simpl. rewrite Huser. split; [done|]. split; [|split].
  - unfold coalesce. by destruct (foldl _ _ _).
  - intros pre post -> Hmiss. rewrite foldl_app. unfold coalesce.
    pose proof (foldl_optional_get_nullish (w_heap w) _ post Hmiss) as Hnull.
    rewrite Hnull. done.
  - by intros ->.
Qed.

Lemma loggerMiddleware_resolves_identity_witness :
  ∃ s w',
    next_result
      (loggerMiddleware {| userIdPath := Some "auth.user.sub"; txIdHeader := None;
                           generateTxId := None |}
         {| w_heap := request_heap; w_uuids := 0 |}
         (VRef 2%positive) (λ _, VUndefined)
         (λ store w, get (w_heap w) store "userId"))
    = get (w_heap w') (VRef s) "userId"
    ∧ get (w_heap w') (VRef s) "userId" = VNull.
Proof.
  destruct (loggerMiddleware_resolves_identity
              {| userIdPath := Some "auth.user.sub"; txIdHeader := None;
                 generateTxId := None |}
              {| w_heap := request_heap; w_uuids := 0 |}
              (VRef 2%positive) (λ _, VUndefined)
              (λ store w, get (w_heap w) store "userId"))
    as (s & w' & Hnext & _ & Hmiss & _).
  exists s, w'. split; [exact Hnext|].
  apply (Hmiss ["auth"] ["user"; "sub"]); reflexivity.
Defined.

(** ** The console adapters (lines 227-255) *)

Lemma console_data_ts now h rest :
  (∀ a, rest = [VRef a] →
        plain (default (VStr now) (get_prop "ts" (entries h (VRef a)))) = true) →
  plain (default (VStr now)
           (get_prop "ts" (entries (console_data h rest).2 (console_data h rest).1)))
  = true.
Proof.
  intros Hdata.
  assert (∀ vs : list value,
            get_prop "ts" (entries
              (<[fresh (dom (<[fresh (dom h) := Arr vs []]> h))
                 := Obj [("args", VRef (fresh (dom h)))]]>
                 (<[fresh (dom h) := Arr vs []]> h))
              (VRef (fresh (dom (<[fresh (dom h) := Arr vs []]> h))))) = None) as Hwrap.
  { intros vs. unfold entries. by rewrite lookup_insert_eq. }
  destruct rest as [|v rest]; [done|].
  destruct v, rest; cbn [console_data fst snd]; rewrite ?Hwrap; try done.
  by apply Hdata.
Qed.

(** X21: what a [console] adapter does with its arguments.  The
    message is the text of the first argument ([undefined] when there is
    none); when that conversion throws, the adapter throws, whatever the
    level.  Otherwise, unless its single extra argument is an object whose
    own [ts] is a BigInt or an object, the adapter returns normally:
    without event below the minimum level, and past the gate with one
    object text in which the message is the [msg], or the [originalMsg] of
    the fallback event; in console mode that text is written once, to the
    console method of the level. *)
Theorem console_adapter_event lvl cfg h store now args :
  (∀ a, tl args = [VRef a] →
        plain (default (VStr now) (get_prop "ts" (entries h (VRef a)))) = true) →
  match ToString (console_data h (tl args)).2 (hd VUndefined args) with
  | Ok text =>
      (below_level lvl (currentLevel cfg) = true →
       console_method lvl cfg h store now args = Ok Skipped)
      ∧ (below_level lvl (currentLevel cfg) = false →
         ∃ ms, console_method lvl cfg h store now args
               = Ok (Emitted (Some (JObj ms)) (dispatch cfg lvl (Some (JObj ms))))
               ∧ (json_get "msg" ms = Some (JStr text)
                  ∨ json_get "msg" ms = Some (JStr "Failed to serialize log entry")
                    ∧ json_get "originalMsg" ms = Some (JStr text))
               ∧ (outputMode cfg = "console" →
                  dispatch cfg lvl (Some (JObj ms))
                  = [(console_sink lvl, render (JObj ms))]))
  | Throw e => console_method lvl cfg h store now args = Throw e
  | OutOfFuel => False
  end.
Proof.
  intros Hdata.
  pose proof (console_data_ts now h (tl args) Hdata) as Hts.
  pose proof (ToString_converts (console_data h (tl args)).2 (hd VUndefined args))
    as [[text Htext]|Htext]; rewrite Htext;
    [|by apply console_method_unprintable].
  split; [by apply (console_method_skipped _ _ _ _ _ _ text)|].
  intros Hgate. unfold console_method.
  destruct (console_data h (tl args)) as [data h1]. cbn [fst snd] in *.
  rewrite Htext. simpl. unfold emit. rewrite Hgate. unfold serialize_entry.
  set (entry := build_entry h1 store now lvl (VStr text) data).
  set (e := fresh (dom h1)). set (h2 := <[e := Obj entry]> h1).
  pose proof (JSON_stringify_fuel (Some safe_replacer) h2 ∅ (VRef e)) as Hfuel.
  pose proof (safeStringify_object h2 e entry) as Hobj.
  assert (∀ ms, outputMode cfg = "console" →
                dispatch cfg lvl (Some (JObj ms)) = [(console_sink lvl, render (JObj ms))])
    as Hconsole.
  { intros ms Hmode. unfold dispatch. rewrite Hmode.
    rewrite console_writes_sink by (by left).
    by destruct (logFileStream cfg). }
  destruct (safeStringify h2 (VRef e)) as [oj|err|] eqn:Hser.
  - destruct (Hobj oj) as [ms ->]; [apply lookup_insert_eq | done |].
    exists ms. split; [done|]. split; [|apply Hconsole]. left.
    apply (serialized_field h1 e entry (JObj ms) "msg" (VStr text) (JStr text));
      [apply NoDup_build_entry | exact Hser | | done].
    unfold entry. rewrite build_entry_reserved by done. apply entry_literal_msg.
  - assert (ToString h2 (VStr text) = Ok text) as -> by done. simpl.
    assert (get h2 (VRef e) "ts"
            = default (VStr now) (get_prop "ts" (entries h1 data))) as ->.
    { unfold get, entries, h2. rewrite lookup_insert_eq. simpl.
      rewrite literal_NoDup_id by apply NoDup_build_entry.
      unfold entry. by rewrite build_entry_ts. }
    destruct (fallback_serializes_plain h2 (fresh (dom h2)) _
                "Failed to serialize log entry" text Hts)
      as (ms & -> & _ & _ & Hmsg & Horiginal & _).
    exists ms. split; [done|]. split; [by right | apply Hconsole].
  - by unfold safeStringify in Hser.
Qed.

Lemma console_adapter_event_witness :
  ∃ ms, console_warn initial_config bigint_heap VUndefined "T" [VNum 7; VRef 1%positive]
        = Ok (Emitted (Some (JObj ms)) (dispatch initial_config "warn" (Some (JObj ms))))
        ∧ dispatch initial_config "warn" (Some (JObj ms))
          = [(ConsoleWarn, render (JObj ms))].
Proof.
  pose proof (console_adapter_event "warn" initial_config bigint_heap VUndefined "T"
                [VNum 7; VRef 1%positive]) as Hevent.
  assert (ToString (console_data bigint_heap [VRef 1%positive]).2 (VNum 7) = Ok "7")
    as Htext by reflexivity.
  cbn [hd tl] in Hevent. rewrite Htext in Hevent.
  destruct Hevent as [_ Hpast].
  - intros a [= <-]. reflexivity.
  - destruct Hpast as (ms & Hemit & _ & Hconsole); [reflexivity|].
    exists ms. split; [exact Hemit | by apply Hconsole].
Defined.

(** ** One event, one line (lines 78-105) *)

Lemma single_line_app a b :
  single_line (a ++ b) = single_line a && single_line b.
Proof. induction a as [|c a IH]; simpl; [done|]. by rewrite IH, andb_assoc. Qed.

Lemma escape_char_single_line c : single_line (escape_char c) = true.
Proof. by destruct c as [[] [] [] [] [] [] [] []]. Qed.

Lemma escape_single_line s : single_line (escape s) = true.
Proof.
  induction s as [|c s IH]; simpl; [done|].
  by rewrite single_line_app, escape_char_single_line, IH.
Qed.

Lemma quote_single_line s : single_line (quote s) = true.
Proof. unfold quote. by rewrite !single_line_app, escape_single_line. Qed.

Lemma pretty_N_go_single_line x s :
  single_line s = true → single_line (pretty_N_go x s) = true.
Proof.
  revert s. induction (N.lt_wf_0 x) as [x _ IH]; intros s Hs.
  assert (x = 0 ∨ 0 < x)%N as [->|Hx] by lia; [by rewrite pretty_N_go_0|].
  rewrite pretty_N_go_step by done. apply IH; [by apply N.div_lt|].
  simpl. rewrite Hs, andb_true_r. unfold pretty_N_char. by repeat case_match.
Qed.

Lemma pretty_N_single_line (x : N) : single_line (pretty x) = true.
Proof.
  unfold pretty, pretty_N. case_decide; [done|]. by apply pretty_N_go_single_line.
Qed.

Lemma pretty_Z_single_line (n : Z) : single_line (pretty n) = true.
Proof.
  destruct n as [|p|p]; [done|apply pretty_N_single_line|].
  change (single_line ("-" ++ pretty (N.pos p)) = true).
  by rewrite single_line_app, pretty_N_single_line.
Qed.

Lemma concat_single_line sep parts :
  single_line sep = true →
  Forall (λ s, single_line s = true) parts →
  single_line (String.concat sep parts) = true.
Proof.
  intros Hsep. induction 1 as [|s parts Hs Hparts IH]; [done|].
  destruct parts as [|s' parts]; [done|].
  change (single_line (s ++ sep ++ String.concat sep (s' :: parts)) = true).
  by rewrite !single_line_app, Hs, Hsep, IH.
Qed.

Lemma json_nested_ind (P : json → Prop) :
  P JNull → (∀ b, P (JBool b)) → (∀ n, P (JNum n)) → (∀ s, P (JStr s)) →
  (∀ items, Forall P items → P (JArr items)) →
  (∀ members, Forall (λ kv, P kv.2) members → P (JObj members)) →
  ∀ j, P j.
Proof.
  intros Hnull Hbool Hnum Hstr Harr Hobj. fix IH 1.
  intros [|b|n|s|items|members]; [done..| |].
  - apply Harr. induction items as [|j items IHitems]; constructor; [apply IH | done].
  - apply Hobj. induction members as [|[k j] members IHmembers]; constructor;
      [apply IH | done].
Qed.

Lemma render_single_line j : single_line (render j) = true.
Proof.
  induction j as [|[]|n|s|items IH|members IH] using json_nested_ind; try done.
  - apply pretty_Z_single_line.
  - apply quote_single_line.
  - cbn [render]. rewrite !single_line_app. simpl. rewrite andb_true_r.
    apply concat_single_line; [done|]. by apply Forall_fmap.
  - cbn [render]. rewrite !single_line_app. simpl. rewrite andb_true_r.
    apply concat_single_line; [done|]. apply Forall_fmap.
    eapply Forall_impl; [exact IH|]. intros [k j'] Hj. unfold compose. cbn [fst snd] in *.
    by rewrite !single_line_app, quote_single_line, Hj.
Qed.

(** X22: every event is written as one line.  The text that [emit]
    produces holds no line feed, whatever the strings of the message, the
    data and the context contain; the file receives that text followed by
    the single line feed that ends the record, and the console receives
    the text itself. *)
Theorem emitted_event_is_one_line cfg h store now lvl message data output writes :
  emit cfg h store now lvl message data = Ok (Emitted output writes) →
  single_line (output_text output) = true
  ∧ ∀ target line, (target, line) ∈ writes →
      match target with
      | FileSink _ => line = output_text output ++ newline
      | _ => line = output_text output
      end.
Proof.
  intros Hemit. split.
  - destruct output as [j|]; [apply render_single_line | done].
  - unfold emit in Hemit. destruct (below_level _ _); [done|].
    destruct (serialize_entry _ _ _) as [out| |]; [|done..].
    simpl in Hemit. injection Hemit as -> <-.
    intros target line Hin. unfold dispatch in Hin.
    apply elem_of_app in Hin as [Hfile | Hconsole].
    + destruct (logFileStream cfg); [|by apply elem_of_nil in Hfile].
      destruct (file_selected _); [|by apply elem_of_nil in Hfile].
      apply list_elem_of_singleton in Hfile. by simplify_eq.
    + unfold console_writes in Hconsole.
      destruct (_ || _); [|by apply elem_of_nil in Hconsole].
      repeat case_match; apply list_elem_of_singleton in Hconsole; by simplify_eq.
Qed.

Lemma emitted_event_is_one_line_witness :
  single_line
    (output_text (Some (JObj [("ts", JStr "T"); ("level", JStr "info");
                              ("userId", JNull); ("txId", JNull);
                              ("msg", JStr ("a" ++ newline ++ "b"))]))) = true.
Proof.
  eapply proj1,
    (emitted_event_is_one_line initial_config ∅ VUndefined "T" "info"
       (VStr ("a" ++ newline ++ "b")) VUndefined _
       [(ConsoleLog, String.concat EmptyString
           ["{"; quote "ts"; ":"; quote "T"; ","; quote "level"; ":"; quote "info"; ",";
            quote "userId"; ":null,"; quote "txId"; ":null,"; quote "msg"; ":";
            dquote; "a"; backslash; "nb"; dquote; "}"])]).
  vm_compute. reflexivity.
Defined.

(** ** Initializing again (lines 209-225 and 433-448) *)

(** X23: a stream opened by an earlier initialization stays in use.
    When [replaceConsole] is called again without a path, the current
    variant keeps the stream, and goes on writing every event to it as
    soon as the new mode selects the file.  The second variant forgets
    the path on every call: after the same call it writes to the console
    only, or nowhere. *)
Theorem stream_survives_reinit fs cfg options p cfg' :
  logFileStream cfg = Some p →
  filePath options = None →
  replaceConsole fs cfg options = Ok cfg' →
  logFileStream cfg' = Some p
  ∧ (file_selected (default "console" (output options)) = true →
     ∀ lvl out, (FileSink p, output_text out ++ newline) ∈ dispatch cfg' lvl out)
  ∧ ∃ legacy, Legacy.replaceConsole fs options = Ok legacy
              ∧ ∀ lvl out target line,
                  (target, line) ∈ Legacy.dispatch legacy lvl out →
                  target = console_sink lvl.
Proof.
  intros Hstream Hpath. unfold replaceConsole, Legacy.replaceConsole.
  rewrite Hpath. intros [= <-]. cbn [logFileStream]. split; [done|]. split.
  - intros Hfile lvl out. unfold dispatch. cbn [logFileStream outputMode].
    rewrite Hstream, Hfile. apply elem_of_app. left. apply list_elem_of_singleton. done.
  - eexists. split; [reflexivity|]. intros lvl out target line.
    unfold Legacy.dispatch. cbn [Legacy.logFilePath Legacy.outputMode app].
    unfold console_writes, console_sink.
    destruct (_ || _); [|by intros ?%elem_of_nil].
    repeat case_match; intros ?%list_elem_of_singleton; by simplify_eq.
Qed.

Lemma stream_survives_reinit_witness :
  ∃ cfg',
    replaceConsole plain_fs
                   {| currentLevel := Rank 1; outputMode := "file";
                      logFileStream := Some "/var/log/app.log" |}
                   {| level := Some "debug"; output := Some "both"; filePath := None |}
    = Ok cfg'
    ∧ (FileSink "/var/log/app.log", "null" ++ newline) ∈ dispatch cfg' "info" (Some JNull).
Proof.
  eexists. split; [reflexivity|].
  destruct (stream_survives_reinit plain_fs
              {| currentLevel := Rank 1; outputMode := "file";
                 logFileStream := Some "/var/log/app.log" |}
              {| level := Some "debug"; output := Some "both"; filePath := None |}
              "/var/log/app.log" _ eq_refl eq_refl eq_refl) as (_ & Hfile & _).
  apply (Hfile eq_refl "info" (Some JNull)).
Defined.
